(** * Gaussian elimination over exact rationals: a shallow embedding of
      [gaussian_elimination.py] and the properties of its four routines.

    Entries are exact rationals ([Qc], canonical fractions, the values of
    Python's [fractions.Fraction] and of ints whose quotients are exact);
    floating-point rounding is not modelled.  A matrix is a Python list of
    row lists, each row its own object.  Every subscript can raise
    [IndexError], every division [ZeroDivisionError]; in-place updates are
    threaded as explicit state. *)

From Stdlib Require Import QArith Qcanon Qcabs Qround Lia String.
From Stdlib Require Import Floats.SpecFloat.
From stdpp Require Import base numbers list.

Local Open Scope Qc_scope.
Local Open Scope list_scope.

(** ** Python values and exceptions *)

Abbreviation row := (list Qc).
Abbreviation matrix := (list (list Qc)).

(** A solution vector is a Python list whose items are numbers or [None]. *)
Abbreviation vector := (list (option Qc)).

Inductive exn :=
| IndexError
| ZeroDivisionError
| TypeError
| ValueError
| OverflowError
| LoopBound. (* not a Python exception: a [while] loop cut off by its bound *)

Inductive res (A : Type) :=
| Ok (a : A)
| Raise (e : exn).
Arguments Ok {A} a.
Arguments Raise {A} e.

Definition bind {A B} (m : res A) (k : A -> res B) : res B :=
  match m with
  | Ok a => k a
  | Raise e => Raise e
  end.

Notation "x <- m ;; k" := (bind m (fun x => k))
  (at level 100, m at next level, right associativity).

(** [for x in xs: s = body(x, s)] *)
Fixpoint for_each {St : Type} (xs : list nat) (body : nat -> St -> res St)
    (s : St) : res St :=
  match xs with
  | [] => Ok s
  | x :: xs' => s' <- body x s ;; for_each xs' body s'
  end.

(** [[f(x) for x in xs]] *)
Fixpoint comprehension {A : Type} (xs : list nat) (f : nat -> res A)
  : res (list A) :=
  match xs with
  | [] => Ok []
  | x :: xs' => a <- f x ;; l <- comprehension xs' f ;; Ok (a :: l)
  end.

(** [range(a, b)] for non-negative bounds; [range(b - 1, -1, -1)] is
    [rev (range 0 b)]. *)
Definition range (a b : nat) : list nat := seq a (b - a).

(** ** Subscripts *)

(** [l[i]] for an index that is never negative. *)
Definition idx {A} (l : list A) (i : nat) : res A :=
  match l !! i with
  | Some a => Ok a
  | None => Raise IndexError
  end.

(** [l[i] = v] *)
Definition set_idx {A} (l : list A) (i : nat) (v : A) : res (list A) :=
  if decide (i < length l)%nat then Ok (<[i := v]> l) else Raise IndexError.

(** [del l[i]] *)
Definition del_idx {A} (l : list A) (i : nat) : res (list A) :=
  if decide (i < length l)%nat then Ok (delete i l) else Raise IndexError.

(** Python's rule for an index that may be negative: it counts from the
    end. *)
Definition norm_index (len : nat) (z : Z) : option nat :=
  let j := (if decide (z < 0) then z + Z.of_nat len else z)%Z in
  if decide (0 <= j < Z.of_nat len)%Z then Some (Z.to_nat j) else None.

Definition idxZ {A} (l : list A) (z : Z) : res A :=
  match norm_index (length l) z with
  | Some i => idx l i
  | None => Raise IndexError
  end.

Definition set_idxZ {A} (l : list A) (z : Z) (v : A) : res (list A) :=
  match norm_index (length l) z with
  | Some i => set_idx l i v
  | None => Raise IndexError
  end.

(** [L[k][j]] *)
Definition get2 (L : matrix) (k j : nat) : res Qc :=
  r <- idx L k ;; idx r j.

(** [L[k][j] = v]: the row object is fetched, then updated in place. *)
Definition set2 (L : matrix) (k j : nat) (v : Qc) : res matrix :=
  r <- idx L k ;; r' <- set_idx r j v ;; Ok (<[k := r']> L).

Definition get2Z (L : matrix) (k : nat) (z : Z) : res Qc :=
  r <- idx L k ;; idxZ r z.

Definition set2Z (L : matrix) (k : nat) (z : Z) (v : Qc) : res matrix :=
  r <- idx L k ;; r' <- set_idxZ r z v ;; Ok (<[k := r']> L).

(** ** Arithmetic *)

(** [a / b] *)
Definition py_div (a b : Qc) : res Qc :=
  if decide (b = 0) then Raise ZeroDivisionError else Ok (a / b).

(** [a % 2], Python's floored remainder. *)
Definition mod2 (a : Qc) : Qc :=
  a - 2 * Q2Qc (inject_Z (Qfloor (a / 2))).

(** [sum(l)] *)
Definition py_sum (l : list Qc) : Qc := foldl Qcplus 0 l.

(** [max(l)]: the first of the largest items; [ValueError] on [[]]. *)
Definition py_max (l : list Qc) : res Qc :=
  match l with
  | [] => Raise ValueError
  | a :: l' => Ok (foldl (fun m x => if decide (m < x) then x else m) a l')
  end.

(** [set(l1) == set(l2)]: each list's items occur in the other. *)
Definition set_eqb (l1 l2 : list Qc) : bool :=
  forallb (fun x => existsb (fun y => bool_decide (x = y)) l2) l1 &&
  forallb (fun y => existsb (fun x => bool_decide (x = y)) l1) l2.

(** ** The Reducer: [row_echelon_form] *)

(** Lines 19-24: the row of the largest absolute value in column [i], from
    row [i] down; the earliest such row on a tie. *)
Definition pivot_search (num_rows i : nat) (L : matrix) : res nat :=
  v0 <- get2 L i i ;;
  st <-
    for_each (range (i + 1) num_rows)
      (fun k '(max_el, max_row) =>
         v <- get2 L k i ;;
         if decide (max_el < Qcabs v) then Ok (Qcabs v, k)
         else Ok (max_el, max_row))
      (Qcabs v0, i) ;;
  Ok (snd st).

(** Lines 27-30: [for k in range(i, num_cols)] exchange [L[max_row][k]] and
    [L[i][k]]. *)
Definition swap_step (num_cols i max_row : nat) (L : matrix) : res matrix :=
  for_each (range i num_cols)
    (fun k L =>
       tmp <- get2 L max_row k ;;
       a <- get2 L i k ;;
       L <- set2 L max_row k a ;;
       set2 L i k tmp)
    L.

(** Lines 39-43: the update of row [k] with multiplier [c]. *)
Definition eliminate_row (num_cols i k : nat) (c : Qc) (L : matrix)
  : res matrix :=
  for_each (range i num_cols)
    (fun j L =>
       if decide (i = j) then set2 L k j 0
       else
         cur <- get2 L k j ;;
         b <- get2 L i j ;;
         set2 L k j (cur + c * b))
    L.

(** Lines 33-43. *)
Definition eliminate (num_rows num_cols i : nat) (L : matrix) : res matrix :=
  for_each (range (i + 1) num_rows)
    (fun k L =>
       p <- get2 L i i ;;
       if decide (p = 0) then Ok L
       else
         a <- get2 L k i ;;
         p' <- get2 L i i ;;
         c <- py_div (- a) p' ;;
         eliminate_row num_cols i k c L)
    L.

(** One pass of the loop of line 17. *)
Definition reduce_column (num_rows num_cols i : nat) (L : matrix)
  : res matrix :=
  max_row <- pivot_search num_rows i L ;;
  L <- swap_step num_cols i max_row L ;;
  eliminate num_rows num_cols i L.

(** ** The Deduplicator: [remove_duplicate_row_echelon_form] *)

(** The inner [while j < num_rows] of lines 64-73; [fuel] bounds the
    iterations left and is given as the loop's variant [num_rows - j]. *)
Fixpoint dedup_inner (fuel : nat) (i j num_rows : nat) (L : matrix)
  : res (matrix * nat) :=
  if decide (j < num_rows)%nat then
    match fuel with
    | O => Raise LoopBound
    | S fuel' =>
        ri <- idx L i ;;
        rj <- idx L j ;;
        if decide (ri = rj) then
          L' <- del_idx L j ;;
          dedup_inner fuel' i (j + 1) (num_rows - 1) L'
        else dedup_inner fuel' i (j + 1) num_rows L
    end
  else Ok (L, num_rows).

(** The outer [while i < num_rows] of lines 62-74, variant [num_rows - i]. *)
Fixpoint dedup_outer (fuel : nat) (i num_rows : nat) (L : matrix)
  : res matrix :=
  if decide (i < num_rows)%nat then
    match fuel with
    | O => Raise LoopBound
    | S fuel' =>
        st <- dedup_inner (num_rows - (i + 1)) i (i + 1) num_rows L ;;
        dedup_outer fuel' (i + 1) (snd st) (fst st)
    end
  else Ok L.

Definition remove_duplicate_row_echelon_form (L : matrix) : res matrix :=
  dedup_outer (length L) 0 (length L) L.

(** Lines 4-48.  [None] is Python's [None]. *)
Definition row_echelon_form (L : matrix) : res (option matrix) :=
  let num_rows := length L in
  if decide (num_rows = 0)%nat then Ok None
  else
    r0 <- idx L 0 ;;
    let num_cols := length r0 in
    L <- for_each (range 0 (min num_cols num_rows))
           (reduce_column num_rows num_cols) L ;;
    L <- remove_duplicate_row_echelon_form L ;;
    Ok (Some L).

(** ** The Solver: [solve_row_echelon_form] *)

(** Line 102: the row [[1 if kk == k or kk == num_cols - 1 else 0 ...]]. *)
Definition basis_row (num_cols k : nat) : row :=
  map (fun kk =>
         if bool_decide (kk = k) ||
            bool_decide (Z.of_nat kk = Z.of_nat num_cols - 1)%Z
         then 1 else 0)
      (range 0 num_cols).

(** Lines 99-102: [R] is rebound to [R[:k] + [row] + R[k:]] wherever the
    diagonal entry is zero. *)
Definition complete_basis (num_rows num_cols : nat) (R : matrix)
  : res matrix :=
  for_each (range 0 num_rows)
    (fun k R =>
       d <- get2 R k k ;;
       if decide (d = 0)
       then Ok ((take k R ++ [basis_row num_cols k]) ++ drop k R)
       else Ok R)
    R.

(** Lines 91-104. *)
Definition completion (num_rows num_cols : nat) (R : matrix) : res matrix :=
  if decide (Z.of_nat num_rows < Z.of_nat num_cols - 1)%Z
  then complete_basis num_rows num_cols R
  else Ok R.

(** Lines 113-116: the first column whose entries form the set [{0}]. *)
Fixpoint zero_column (num_rows : nat) (cols : list nat) (R : matrix)
  : res (option nat) :=
  match cols with
  | [] => Ok None
  | col :: cols' =>
      c <- comprehension (range 0 num_rows) (fun r => get2 R r col) ;;
      if set_eqb c [0] then Ok (Some col) else zero_column num_rows cols' R
  end.

(** Lines 120-124: the rows whose entries before the last column have an
    even sum. *)
Definition even_rows (num_rows num_cols : nat) (R : matrix)
  : res (list row) :=
  for_each (range 0 num_rows)
    (fun r xlist =>
       s <- comprehension (range 0 (num_cols - 1)) (fun col => get2 R r col) ;;
       if decide (mod2 (py_sum s) = 0) then
         xtmp <- comprehension (range 0 (num_cols - 1))
                   (fun col => get2 R r col) ;;
         Ok (xlist ++ [xtmp])
       else Ok xlist)
    [].

(** Lines 125-128. *)
Definition max_per_index (xlist : list row) : res (list Qc) :=
  x0 <- idx xlist 0 ;;
  for_each (range 0 (length x0))
    (fun ind x =>
       c <- comprehension (range 0 (length xlist))
              (fun n => l <- idx xlist n ;; idx l ind) ;;
       m <- py_max c ;;
       Ok (x ++ [m]))
    [].

(** Lines 137-152: back-substitution.  The state is the matrix and the
    list [x]. *)
Definition back_substitute (num_rows num_cols : nat) (R : matrix)
  : res (list Qc) :=
  let last := (Z.of_nat num_cols - 1)%Z in
  st <-
    for_each (rev (range 0 num_rows))
      (fun i '(R, x) =>
         let q := Z.min (Z.of_nat i) (Z.of_nat num_cols - 2) in
         p <- get2Z R i q ;;
         if decide (p = 0) then
           x <- del_idx x i ;; Ok (R, x)
         else
           b <- get2Z R i last ;;
           p' <- get2Z R i q ;;
           v <- py_div b p' ;;
           x <- set_idx x i v ;;
           R <- for_each (rev (range 0 i))
                  (fun j R =>
                     cur <- get2Z R j last ;;
                     a <- get2 R j i ;;
                     xi <- idx x i ;;
                     set2Z R j last (cur - a * xi))
                  R ;;
           Ok (R, x))
      (R, replicate num_rows 0) ;;
  Ok (snd st).

Definition diagnostic : string :=
  "Not enough equations to solve all variables".

(** Lines 78-152.  The argument is what the caller passes: a list of rows
    or [None], on which [len] raises [TypeError].  The result is the text
    printed and the value returned. *)
Definition solve_row_echelon_form (arg : option matrix)
  : res (list string * option vector) :=
  match arg with
  | None => Raise TypeError
  | Some R =>
      let num_rows := length R in
      if decide (num_rows = 0)%nat then Ok ([], None)
      else
        r0 <- idx R 0 ;;
        let num_cols := length r0 in
        R <- completion num_rows num_cols R ;;
        let num_rows := length R in
        r0 <- idx R 0 ;;
        let num_cols := length r0 in
        if decide (Z.of_nat num_rows < Z.of_nat num_cols - 1)%Z then
          if decide (Z.of_nat num_rows = Z.of_nat num_cols - 2)%Z then
            zc <- zero_column num_rows (range 0 (num_cols - 1)) R ;;
            match zc with
            | Some col =>
                Ok ([], Some (map (fun i => Some (if decide (i = col)
                                                  then 1 else 0))
                                  (range 0 (num_cols - 1))))
            | None =>
                xlist <- even_rows num_rows num_cols R ;;
                x <- max_per_index xlist ;;
                Ok ([], Some (map Some x))
            end
          else Ok ([diagnostic], Some (replicate num_rows None))
        else
          x <- back_substitute num_rows num_cols R ;;
          Ok ([], Some (map Some x))
  end.

(** Lines 155-163. *)
Definition gauss_eliminate (L : matrix)
  : res (list string * option vector) :=
  R <- row_echelon_form L ;;
  solve_row_echelon_form R.

(** Lines 166-174. *)
Definition rank (A : matrix) : res nat :=
  R <- row_echelon_form A ;;
  match R with
  | None => Ok 0%nat
  | Some R => Ok (length (filter (fun l => negb (set_eqb l [0])) R))
  end.

(** ** Concrete matrices *)

Definition qz (z : Z) : Qc := Q2Qc (inject_Z z).
Definition qmat (l : list (list Z)) : matrix := map (map qz) l.

#[global] Instance exn_eq_dec : EqDecision exn.
Proof. solve_decision. Defined.

#[global] Instance res_eq_dec {A} `{EqDecision A} : EqDecision (res A).
Proof. solve_decision. Defined.

#[global] Instance string_eq_dec : EqDecision string := string_dec.

(** * Vocabulary of the statements *)

(** [m] does not raise [e]. *)
Definition never {A} (e : exn) (m : res A) : Prop := m <> Raise e.

(** A matrix of [R] rows that all have [C] items. *)
Definition rect (R C : nat) (L : matrix) : Prop :=
  length L = R /\ Forall (fun r => length r = C) L.

(** The entry at row [k], column [j]; 0 outside the matrix. *)
Definition ent (L : matrix) (k j : nat) : Qc :=
  match L !! k with
  | Some r => default 0 (r !! j)
  | None => 0
  end.

(** The item at index [j] of a vector; 0 outside. *)
Definition at0 (x : list Qc) (j : nat) : Qc := default 0 (x !! j).

(** The row read at index [k] once rows [i] and [r] are exchanged. *)
Definition swap_idx (i r k : nat) : nat :=
  if decide (k = i) then r else if decide (k = r) then i else k.

(** Spec 4.1, step 2, in its own words: rows [i] and [max_row] exchanged
    as whole rows. *)
Definition swap_rows (i max_row : nat) (L : matrix) : matrix :=
  match L !! i, L !! max_row with
  | Some ri, Some rm => <[i := rm]> (<[max_row := ri]> L)
  | _, _ => L
  end.

(** Below the diagonal, the columns before [i] are zero. *)
Definition lower_zero (R i : nat) (L : matrix) : Prop :=
  forall k j, (j < i)%nat -> (j < k < R)%nat -> ent L k j = 0.

(** The [R] by [C] matrix of zeros. *)
Definition zeros (R C : nat) : matrix := replicate R (replicate C 0).

(** [r . x] *)
Fixpoint dot (r x : list Qc) : Qc :=
  match r, x with
  | a :: r', b :: x' => a * b + dot r' x'
  | _, _ => 0
  end.

(** [A . x] *)
Definition mat_vec (A : matrix) (x : list Qc) : list Qc :=
  map (fun r => dot r x) A.

(** The augmented matrix [[A|b]]. *)
Definition augment (A : matrix) (b : list Qc) : matrix :=
  zip_with (fun r bi => r ++ [bi]) A b.

(** A square matrix of full rank: its columns are linearly independent,
    that is, [A . x = 0] only for [x = 0]. *)
Definition full_rank (n : nat) (A : matrix) : Prop :=
  forall x, length x = n -> mat_vec A x = replicate n 0 -> x = replicate n 0.

(** [f 0 + ... + f (n - 1)] *)
Fixpoint sumf (f : nat -> Qc) (n : nat) : Qc :=
  match n with
  | O => 0
  | S n' => sumf f n' + f n'
  end.

(** The left-hand side of equation [k] of [L] at the point [v], over [C]
    columns. *)
Definition lin (C : nat) (L : matrix) (k : nat) (v : nat -> Qc) : Qc :=
  sumf (fun j => ent L k j * v j) C.

(** The part of equation [k] that lies in the columns from [i] on. *)
Definition tail_sum (M : matrix) (n i k : nat) (x : list Qc) : Qc :=
  sumf (fun j => if decide (i <= j)%nat then ent M k j * at0 x j else 0) n.

(** The function [v] with the value at [p] replaced. *)
Definition fupd (v : nat -> Qc) (p : nat) (a : Qc) : nat -> Qc :=
  fun j => if decide (j = p) then a else v j.

(** [M] has the solutions of [[A|b]], for every value of the last
    coordinate. *)
Definition same_solutions (n : nat) (A : matrix) (b : list Qc) (M : matrix)
  : Prop :=
  forall v, (forall k, (k < n)%nat -> lin (n + 1) M k v = 0) <->
            (forall k, (k < n)%nat -> lin (n + 1) (augment A b) k v = 0).

(** The system [2 x1 + x2 = 5], [x1 + 3 x2 = 10]. *)
Definition A_example : matrix := [[1 + 1; 1]; [1; 1 + 1 + 1]].
Definition b_example : list Qc := [qz 5; qz 10].

(** No row value occurs at three indices of [L]. *)
Definition no_triple (L : matrix) : Prop :=
  forall a b c r, (a < b < c)%nat ->
    L !! a = Some r -> L !! b = Some r -> L !! c = Some r -> False.

(** The rows at the indices before [i] occur nowhere else in [L]. *)
Definition unique_before (i : nat) (L : matrix) : Prop :=
  forall a b r, (a < i)%nat -> a <> b ->
    L !! a = Some r -> L !! b = Some r -> False.

(** Row [i] does not occur again at the indices after [i] and before
    [j]. *)
Definition clean_between (i j : nat) (L : matrix) : Prop :=
  forall b r, (i < b < j)%nat ->
    L !! i = Some r -> L !! b = Some r -> False.

(** The left-hand side of the equation with coefficient row [r] at the
    point [v]. *)
Definition row_lin (C : nat) (r : row) (v : nat -> Qc) : Qc :=
  sumf (fun j => at0 r j * v j) C.

(** [v] satisfies every equation of [L]: each row, the right-hand side
    included, has product 0 with [v] (a solution [x] of [[A|b]] is the
    point [x_0, ..., x_(C-2), -1]). *)
Definition solves (C : nat) (L : matrix) (v : nat -> Qc) : Prop :=
  forall r, r ∈ L -> row_lin C r v = 0.

(** The [n] by [n] identity matrix. *)
Definition identity (n : nat) : matrix :=
  map (fun k => map (fun j => if decide (j = k) then 1 else 0) (seq 0 n))
      (seq 0 n).

(** The coefficient part and the right-hand side of an augmented matrix
    with [n] unknowns. *)
Definition coeffs (n : nat) (M : matrix) : matrix := map (take n) M.
Definition rhs (n : nat) (M : matrix) : list Qc := map (fun r => at0 r n) M.

(** The number of non-zero diagonal entries in rows [i] to [n - 1]. *)
Definition pivots (M : matrix) (i n : nat) : nat :=
  length (filter (fun k => ent M k k <> 0) (seq i (n - i))).

(** Column [col] of the [R] rows of [M] holds zeros only. *)
Definition column_zero (M : matrix) (R col : nat) : Prop :=
  forall k, (k < R)%nat -> ent M k col = 0.

(** The first [n] entries of row [r]. *)
Definition row_prefix (M : matrix) (n r : nat) : row :=
  map (fun col => ent M r col) (range 0 n).

(** The first [n] entries of row [r] have an even sum. *)
Definition row_even (M : matrix) (n r : nat) : Prop :=
  mod2 (py_sum (row_prefix M n r)) = 0.

#[global] Instance row_even_dec M n r : Decision (row_even M n r).
Proof. unfold row_even. apply _. Defined.

(** * Runs on concrete inputs *)

(** C6: on [[1,1,0,0],[0,1,1,0]] the solver returns [1,1,1]; no column is
    all zero, both rows have an even sum and the result is their maximum
    per position. *)
Theorem gf2_example_solution :
  gauss_eliminate (qmat [[1;1;0;0];[0;1;1;0]]%Z)
    = Ok ([], Some [Some (qz 1); Some (qz 1); Some (qz 1)])
  /\ row_echelon_form (qmat [[1;1;0;0];[0;1;1;0]]%Z)
       = Ok (Some (qmat [[1;1;0;0];[0;1;1;0]]%Z))
  /\ zero_column 2 (range 0 3) (qmat [[1;1;0;0];[0;1;1;0]]%Z) = Ok None
  /\ even_rows 2 4 (qmat [[1;1;0;0];[0;1;1;0]]%Z)
       = Ok (qmat [[1;1;0];[0;1;1]]%Z)
  /\ max_per_index (qmat [[1;1;0];[0;1;1]]%Z) = Ok [qz 1; qz 1; qz 1].
Proof. repeat split; compute_done. Qed.

(** The fully determined example of the spec: [2 x1 + x2 = 5],
    [x1 + 3 x2 = 10] has the solution [1, 3]. *)
Lemma determined_example_solution :
  gauss_eliminate (qmat [[2;1;5];[1;3;10]]%Z)
    = Ok ([], Some [Some (qz 1); Some (qz 3)]).
Proof. compute_done. Qed.

(** C2: with zero rows, [row_echelon_form] and [solve_row_echelon_form]
    return [None], but [gauss_eliminate] hands the [None] of the first to
    the second, whose [len] raises [TypeError]; [rank] tests for that
    [None] and returns 0. *)
Theorem empty_input_behaviour :
  row_echelon_form [] = Ok None
  /\ solve_row_echelon_form (Some []) = Ok ([], None)
  /\ rank [] = Ok 0%nat
  /\ gauss_eliminate [] = Raise TypeError.
Proof. repeat split; reflexivity. Qed.

(** C3: the echelon matrix [[1,1,1,0],[0,1,0,0]] has two rows and four
    columns, no all-zero column and no row of even sum; [xlist] stays
    empty and [xlist[0]] raises [IndexError]. *)
Theorem no_even_row_raises :
  let R := qmat [[1;1;1;0];[0;1;0;0]]%Z in
  completion 2 4 R = Ok R
  /\ zero_column 2 (range 0 3) R = Ok None
  /\ even_rows 2 4 R = Ok []
  /\ solve_row_echelon_form (Some R) = Raise IndexError
  /\ gauss_eliminate R = Raise IndexError.
Proof. repeat split; compute_done. Qed.

(** C5, as stated, fails on [[1,0,0,0,0]]: one equation and four unknowns
    give a vector of one [None], not four. *)
Lemma unsolvable_vector_not_per_unknown :
  let R := qmat [[1;0;0;0;0]]%Z in
  completion 1 5 R = Ok R
  /\ solve_row_echelon_form (Some R) = Ok ([diagnostic], Some [None])
  /\ ~ (exists out,
          solve_row_echelon_form (Some R)
            = Ok (out, Some (replicate (5 - 1) None))).
Proof.
  split; [compute_done|]. split; [compute_done|].
  intros [out H].
  assert (E : solve_row_echelon_form (Some (qmat [[1;0;0;0;0]]%Z))
              = Ok ([diagnostic], Some [None])) by compute_done.
  cbv zeta in H. rewrite E in H. discriminate H.
Qed.

(** C7: three equal rows.  The first pass deletes one of them and steps
    over the next; a second pass deletes another, so two passes differ
    from one. *)
Theorem dedup_twice_differs :
  let M := qmat [[0;0];[0;0];[0;0]]%Z in
  remove_duplicate_row_echelon_form M = Ok (qmat [[0;0];[0;0]]%Z)
  /\ remove_duplicate_row_echelon_form (qmat [[0;0];[0;0]]%Z)
       = Ok (qmat [[0;0]]%Z)
  /\ (M' <- remove_duplicate_row_echelon_form M ;;
      remove_duplicate_row_echelon_form M')
       <> remove_duplicate_row_echelon_form M.
Proof. repeat split; compute_done. Qed.

(** C8: of three equal rows the third, equal to an earlier row, is kept:
    after [del L[1]] the index [j] moves on to 2 and the row now at
    index 1 is never compared. *)
Theorem dedup_keeps_a_duplicate :
  remove_duplicate_row_echelon_form (qmat [[1;0];[1;0];[1;0]]%Z)
    = Ok (qmat [[1;0];[1;0]]%Z)
  /\ dedup_inner 2 0 1 3 (qmat [[1;0];[1;0];[1;0]]%Z)
       = Ok (qmat [[1;0];[1;0]]%Z, 2%nat).
Proof. repeat split; compute_done. Qed.

(** * Exceptions that cannot occur *)

Section Never.
Context (e : exn).

Lemma never_Ok {A} (a : A) : never e (Ok a).
Proof. discriminate. Qed.

Lemma never_bind {A B} (m : res A) (k : A -> res B) :
  never e m -> (forall a, m = Ok a -> never e (k a)) -> never e (bind m k).
Proof.
  unfold never. destruct m as [a|e']; simpl; intros Hm Hk.
  - now apply Hk.
  - intros [= ->]. now apply Hm.
Qed.

Lemma never_for_each {St} xs (body : nat -> St -> res St) s :
  (forall x s, never e (body x s)) -> never e (for_each xs body s).
Proof.
  intros Hb. revert s. induction xs as [|x xs IH]; intros s; simpl.
  - apply never_Ok.
  - apply never_bind; [apply Hb | intros; apply IH].
Qed.

Lemma never_comprehension {A} xs (f : nat -> res A) :
  (forall x, never e (f x)) -> never e (comprehension xs f).
Proof.
  intros Hf. induction xs as [|x xs IH]; simpl.
  - apply never_Ok.
  - apply never_bind; [apply Hf | intros].
    apply never_bind; [apply IH | intros; apply never_Ok].
Qed.
End Never.

Section NoZeroDivision.
Local Abbreviation nzd := (never ZeroDivisionError).

Lemma nzd_idx {A} (l : list A) i : nzd (idx l i).
Proof. unfold idx, never. destruct (l !! i); discriminate. Qed.

Lemma nzd_set_idx {A} (l : list A) i v : nzd (set_idx l i v).
Proof. unfold set_idx, never. case_decide; discriminate. Qed.

Lemma nzd_del_idx {A} (l : list A) i : nzd (del_idx l i).
Proof. unfold del_idx, never. case_decide; discriminate. Qed.

Lemma nzd_idxZ {A} (l : list A) z : nzd (idxZ l z).
Proof.
  unfold idxZ. destruct (norm_index _ _); [apply nzd_idx | discriminate].
Qed.

Lemma nzd_set_idxZ {A} (l : list A) z v : nzd (set_idxZ l z v).
Proof.
  unfold set_idxZ.
  destruct (norm_index _ _); [apply nzd_set_idx | discriminate].
Qed.

Lemma nzd_get2 L k j : nzd (get2 L k j).
Proof. apply never_bind; intros; apply nzd_idx. Qed.

Lemma nzd_get2Z L k z : nzd (get2Z L k z).
Proof. apply never_bind; intros; [apply nzd_idx | apply nzd_idxZ]. Qed.

Lemma nzd_set2 L k j v : nzd (set2 L k j v).
Proof.
  apply never_bind; intros; [apply nzd_idx|].
  apply never_bind; intros; [apply nzd_set_idx | apply never_Ok].
Qed.

Lemma nzd_set2Z L k z v : nzd (set2Z L k z v).
Proof.
  apply never_bind; intros; [apply nzd_idx|].
  apply never_bind; intros; [apply nzd_set_idxZ | apply never_Ok].
Qed.

(** A division whose divisor was tested against zero. *)
Lemma nzd_py_div a b : b <> 0 -> nzd (py_div a b).
Proof. intros Hb. unfold py_div. case_decide; [done | discriminate]. Qed.

Lemma nzd_py_max l : nzd (py_max l).
Proof. destruct l; discriminate. Qed.

Create HintDb nzd.
Hint Resolve never_Ok nzd_idx nzd_set_idx nzd_del_idx nzd_idxZ
  nzd_set_idxZ nzd_get2 nzd_get2Z nzd_set2 nzd_set2Z nzd_py_max : nzd.

Ltac nzd_step :=
  match goal with
  | |- never _ (bind _ _) => apply never_bind; [|intros ? ?]
  | |- never _ (for_each _ _ _) => apply never_for_each; intros ? ?
  | |- never _ (comprehension _ _) => apply never_comprehension; intros ?
  | |- never _ (if decide _ then _ else _) => case_decide
  | |- never _ (match ?x with (_, _) => _ end) => destruct x
  | |- never _ _ => solve [auto with nzd]
  end.

Lemma nzd_pivot_search num_rows i L : nzd (pivot_search num_rows i L).
Proof. unfold pivot_search. repeat nzd_step. Qed.

Lemma nzd_swap_step num_cols i max_row L : nzd (swap_step num_cols i max_row L).
Proof. unfold swap_step. repeat nzd_step. Qed.

Lemma nzd_eliminate_row num_cols i k c L : nzd (eliminate_row num_cols i k c L).
Proof. unfold eliminate_row. repeat nzd_step. Qed.

(** Line 37 divides by [L[i][i]], read again after the test of line 35
    with no update in between. *)
Lemma nzd_eliminate num_rows num_cols i L : nzd (eliminate num_rows num_cols i L).
Proof.
  unfold eliminate. apply never_for_each. intros k M.
  apply never_bind; [auto with nzd|]. intros p Hp.
  case_decide; [apply never_Ok|].
  apply never_bind; [auto with nzd|]. intros a _.
  rewrite Hp. simpl.
  apply never_bind; [now apply nzd_py_div|]. intros c _.
  apply nzd_eliminate_row.
Qed.

Lemma nzd_dedup_inner fuel i j n L : nzd (dedup_inner fuel i j n L).
Proof.
  revert j n L. induction fuel as [|fuel IH]; intros j n L; simpl.
  - case_decide; discriminate.
  - case_decide; [|apply never_Ok]. repeat nzd_step; apply IH.
Qed.

Lemma nzd_dedup_outer fuel i n L : nzd (dedup_outer fuel i n L).
Proof.
  revert i n L. induction fuel as [|fuel IH]; intros i n L; simpl.
  - case_decide; discriminate.
  - case_decide; [|apply never_Ok].
    apply never_bind; [apply nzd_dedup_inner | intros; apply IH].
Qed.

Lemma nzd_row_echelon_form L : nzd (row_echelon_form L).
Proof.
  unfold row_echelon_form. case_decide; [apply never_Ok|].
  apply never_bind; [auto with nzd|]. intros r0 _.
  apply never_bind.
  - apply never_for_each. intros i M. unfold reduce_column.
    apply never_bind; [apply nzd_pivot_search|]. intros r _.
    apply never_bind; [apply nzd_swap_step|]. intros M' _.
    apply nzd_eliminate.
  - intros M _. apply never_bind; [apply nzd_dedup_outer|].
    intros; apply never_Ok.
Qed.

(** Line 148 divides by [R[i][q]], read again after the test of line
    144 with no update in between. *)
Lemma nzd_back_substitute num_rows num_cols R :
  nzd (back_substitute num_rows num_cols R).
Proof.
  unfold back_substitute.
  apply never_bind; [|intros; apply never_Ok].
  apply never_for_each. intros i [M x].
  apply never_bind; [auto with nzd|]. intros p Hp.
  case_decide.
  - repeat nzd_step.
  - apply never_bind; [auto with nzd|]. intros b _.
    rewrite Hp. simpl.
    apply never_bind; [now apply nzd_py_div|]. intros v _.
    repeat nzd_step.
Qed.

Lemma nzd_zero_column num_rows cols R : nzd (zero_column num_rows cols R).
Proof.
  induction cols as [|c cols IH]; simpl; [apply never_Ok|].
  apply never_bind; [repeat nzd_step|]. intros col _.
  destruct (set_eqb _ _); [apply never_Ok | apply IH].
Qed.

Lemma nzd_solve_row_echelon_form arg : nzd (solve_row_echelon_form arg).
Proof.
  destruct arg as [R|]; [|discriminate].
  unfold solve_row_echelon_form. case_decide; [apply never_Ok|].
  apply never_bind; [auto with nzd|]. intros r0 _.
  apply never_bind.
  { unfold completion, complete_basis. repeat nzd_step. }
  intros R' _. apply never_bind; [auto with nzd|]. intros r0' _.
  case_decide.
  - case_decide; [|apply never_Ok].
    apply never_bind; [apply nzd_zero_column|]. intros [col|] _.
    + apply never_Ok.
    + unfold even_rows, max_per_index. repeat nzd_step.
  - apply never_bind; [apply nzd_back_substitute | intros; apply never_Ok].
Qed.
End NoZeroDivision.

(** C10: neither the reduction nor the back-substitution (nor any other
    branch of the solver) can raise [ZeroDivisionError]: both quotients
    are guarded by a test of their divisor against zero. *)
Theorem no_division_by_zero :
  (forall L, row_echelon_form L <> Raise ZeroDivisionError)
  /\ (forall num_rows num_cols R,
        back_substitute num_rows num_cols R <> Raise ZeroDivisionError)
  /\ (forall arg, solve_row_echelon_form arg <> Raise ZeroDivisionError)
  /\ (forall a, py_div a 0 = Raise ZeroDivisionError).
Proof.
  split; [exact nzd_row_echelon_form|].
  split; [exact nzd_back_substitute|].
  split; [exact nzd_solve_row_echelon_form|].
  intros a. unfold py_div. case_decide; [reflexivity | done].
Qed.

(** * Loop rules *)

Lemma bind_Ok {A B} (m : res A) (k : A -> res B) a :
  m = Ok a -> bind m k = k a.
Proof. now intros ->. Qed.

Lemma for_each_app {St} xs ys (body : nat -> St -> res St) s :
  for_each (xs ++ ys) body s = (s' <- for_each xs body s ;; for_each ys body s').
Proof.
  revert s. induction xs as [|x xs IH]; intros s; simpl; [reflexivity|].
  destruct (body x s); simpl; [apply IH | reflexivity].
Qed.

Lemma range_split a m b : (a <= m <= b)%nat -> range a b = range a m ++ range m b.
Proof.
  intros H. unfold range.
  replace (b - a)%nat with ((m - a) + (b - m))%nat by lia.
  rewrite seq_app. do 2 f_equal. lia.
Qed.

Lemma range_cons a b : (a < b)%nat -> range a b = a :: range (S a) b.
Proof.
  intros H. unfold range.
  replace (b - a)%nat with (S (b - S a)) by lia. reflexivity.
Qed.

Lemma range_nil a b : (b <= a)%nat -> range a b = [].
Proof. intros H. unfold range. now replace (b - a)%nat with 0%nat by lia. Qed.

Lemma range_snoc b : range 0 (S b) = range 0 b ++ [b].
Proof.
  unfold range. rewrite !Nat.sub_0_r. now rewrite seq_S.
Qed.

(** An ascending loop: the invariant [I k] holds before the pass for
    [k], every pass succeeds and re-establishes it. *)
Lemma for_range_inv {St} (I : nat -> St -> Prop) a b
    (body : nat -> St -> res St) s0 :
  (a <= b)%nat ->
  I a s0 ->
  (forall k s, (a <= k < b)%nat -> I k s ->
     exists s', body k s = Ok s' /\ I (S k) s') ->
  exists s', for_each (range a b) body s0 = Ok s' /\ I b s'.
Proof.
  intros Hab H0 Hstep.
  remember (b - a)%nat as n eqn:Hn.
  revert a s0 Hab H0 Hstep Hn.
  induction n as [|n IH]; intros a s0 Hab H0 Hstep Hn.
  - assert (a = b) by lia. subst b. rewrite range_nil by lia.
    exists s0. now split.
  - rewrite range_cons by lia. simpl.
    destruct (Hstep a s0) as (s1 & Hb & H1); [lia | assumption |].
    rewrite Hb. simpl.
    apply IH; [lia | assumption | | lia].
    intros k s Hk. apply Hstep. lia.
Qed.

(** A descending loop, [for k in range(b - 1, -1, -1)]: [I (S k)] holds
    before the pass for [k] and [I k] after it. *)
Lemma for_rev_range_inv {St} (I : nat -> St -> Prop) b
    (body : nat -> St -> res St) s0 :
  I b s0 ->
  (forall k s, (k < b)%nat -> I (S k) s ->
     exists s', body k s = Ok s' /\ I k s') ->
  exists s', for_each (rev (range 0 b)) body s0 = Ok s' /\ I 0%nat s'.
Proof.
  revert s0. induction b as [|b IH]; intros s0 H0 Hstep.
  - exists s0. now split.
  - rewrite range_snoc, rev_app_distr. simpl.
    destruct (Hstep b s0) as (s1 & Hb & H1); [lia | assumption |].
    rewrite Hb. simpl.
    apply IH; [assumption|]. intros k s Hk. apply Hstep. lia.
Qed.

(** * Reads and writes inside the shape *)

Lemma rect_row R C L k r : rect R C L -> L !! k = Some r -> length r = C.
Proof.
  intros [_ HF] Hk. rewrite Forall_lookup in HF. exact (HF _ _ Hk).
Qed.

Lemma rect_lookup R C L k :
  rect R C L -> (k < R)%nat -> exists r, L !! k = Some r /\ length r = C.
Proof.
  intros HL Hk. destruct (lookup_lt_is_Some_2 L k) as [r Hr].
  - destruct HL as [-> _]. exact Hk.
  - exists r. split; [exact Hr | eapply rect_row; eassumption].
Qed.

Lemma ent_lookup L k j r v :
  L !! k = Some r -> r !! j = Some v -> ent L k j = v.
Proof. unfold ent. now intros -> ->. Qed.

Lemma get2_rect R C L k j :
  rect R C L -> (k < R)%nat -> (j < C)%nat -> get2 L k j = Ok (ent L k j).
Proof.
  intros HL Hk Hj. destruct (rect_lookup _ _ _ _ HL Hk) as (r & Hr & Hlen).
  destruct (lookup_lt_is_Some_2 r j) as [v Hv]; [lia|].
  unfold get2, idx, ent. rewrite Hr. simpl. now rewrite Hv.
Qed.

Lemma set2_rect R C L k j v :
  rect R C L -> (k < R)%nat -> (j < C)%nat ->
  exists L', set2 L k j v = Ok L' /\ rect R C L' /\
    forall k' j', ent L' k' j'
                  = if decide (k' = k /\ j' = j) then v else ent L k' j'.
Proof.
  intros HL Hk Hj. destruct (rect_lookup _ _ _ _ HL Hk) as (r & Hr & Hlen).
  exists (<[k := <[j := v]> r]> L). split; [|split].
  - unfold set2, idx, set_idx. rewrite Hr. simpl.
    rewrite decide_True by lia. reflexivity.
  - destruct HL as [HR HF]. split; [now rewrite length_insert|].
    apply Forall_insert; [exact HF | now rewrite length_insert].
  - intros k' j'. unfold ent.
    destruct (decide (k' = k)) as [->|Hne].
    + rewrite list_lookup_insert_eq by (destruct HL; lia). rewrite Hr.
      destruct (decide (j' = j)) as [->|Hnj].
      * rewrite list_lookup_insert_eq by lia. now rewrite decide_True.
      * rewrite list_lookup_insert_ne by congruence.
        rewrite decide_False by tauto. reflexivity.
    + rewrite list_lookup_insert_ne by congruence.
      rewrite decide_False by tauto. reflexivity.
Qed.

(** Two matrices of one shape with the same entries are equal. *)
Lemma rect_ext R C L L' :
  rect R C L -> rect R C L' ->
  (forall k j, (k < R)%nat -> (j < C)%nat -> ent L k j = ent L' k j) ->
  L = L'.
Proof.
  intros HL HL' He. apply list_eq. intros k.
  destruct (decide (k < R)%nat) as [Hk|Hk].
  - destruct (rect_lookup _ _ _ _ HL Hk) as (r & Hr & Hlen).
    destruct (rect_lookup _ _ _ _ HL' Hk) as (r' & Hr' & Hlen').
    rewrite Hr, Hr'. f_equal. apply list_eq. intros j.
    destruct (decide (j < C)%nat) as [Hj|Hj].
    + specialize (He k j Hk Hj). unfold ent in He. rewrite Hr, Hr' in He.
      destruct (lookup_lt_is_Some_2 r j) as [v Hv]; [lia|].
      destruct (lookup_lt_is_Some_2 r' j) as [v' Hv']; [lia|].
      rewrite Hv, Hv' in *. simpl in He. congruence.
    + rewrite !lookup_ge_None_2 by lia. reflexivity.
  - destruct HL as [HR _], HL' as [HR' _].
    rewrite !lookup_ge_None_2 by lia. reflexivity.
Qed.

(** * The passes of the Reducer on a rectangular matrix *)

Section Reducer.
Context (R C : nat).

Lemma pivot_search_spec L i :
  rect R C L -> (i < R)%nat -> (i < C)%nat ->
  exists r, pivot_search R i L = Ok r /\ (i <= r < R)%nat /\
    forall k, (i <= k < R)%nat -> Qcabs (ent L k i) <= Qcabs (ent L r i).
Proof.
  intros HL Hi HiC. unfold pivot_search.
  rewrite (get2_rect R C) by assumption. simpl.
  set (body := fun (k : nat) '(max_el, max_row) => _).
  destruct (for_range_inv
    (fun k (st : Qc * nat) =>
       (i <= snd st < R)%nat /\ fst st = Qcabs (ent L (snd st) i) /\
       forall k', (i <= k' < k)%nat -> Qcabs (ent L k' i) <= fst st)
    (i + 1) R body (Qcabs (ent L i i), i)) as ([m r] & Hrun & Hr & Hm & Hmax).
  - lia.
  - simpl. split; [lia|]. split; [reflexivity|].
    intros k' Hk'. assert (k' = i) by lia. subst k'. apply Qcle_refl.
  - intros k [m r] Hk (Hr & Hm & Hmax). simpl in *. subst body. simpl.
    rewrite (get2_rect R C) by (assumption || lia). simpl.
    case_decide as Hlt.
    + eexists. split; [reflexivity|]. simpl.
      split; [lia|]. split; [reflexivity|].
      intros k' Hk'. destruct (decide (k' = k)) as [->|Hne].
      * apply Qcle_refl.
      * apply Qcle_trans with m; [apply Hmax; lia | now apply Qclt_le_weak].
    + eexists. split; [reflexivity|]. simpl.
      split; [lia|]. split; [assumption|].
      intros k' Hk'. destruct (decide (k' = k)) as [->|Hne].
      * now apply Qcnot_lt_le.
      * apply Hmax; lia.
  - rewrite Hrun. simpl in *. exists r. split; [reflexivity|].
    split; [assumption|]. intros k Hk. rewrite <- Hm. now apply Hmax.
Qed.

Lemma swap_step_spec L i r :
  rect R C L -> (i < R)%nat -> (r < R)%nat ->
  exists L1, swap_step C i r L = Ok L1 /\ rect R C L1 /\
    forall k j, ent L1 k j
                = if decide (i <= j < C)%nat then ent L (swap_idx i r k) j
                  else ent L k j.
Proof.
  intros HL Hi Hr. unfold swap_step.
  destruct (decide (i <= C)%nat) as [HiC|HiC].
  2:{ rewrite range_nil by lia. exists L. split; [reflexivity|].
      split; [assumption|]. intros k j. now rewrite decide_False by lia. }
  set (body := fun (k : nat) (M : matrix) => _).
  destruct (for_range_inv
    (fun c (M : matrix) =>
       rect R C M /\
       forall k j, ent M k j
                   = if decide (i <= j < c)%nat
                     then ent L (swap_idx i r k) j else ent L k j)
    i C body L) as (L1 & Hrun & HL1 & Hent).
  - exact HiC.
  - split; [assumption|]. intros k j. now rewrite decide_False by lia.
  - intros c M Hc (HM & HeM). subst body. simpl.
    rewrite !(get2_rect R C) by (assumption || lia). simpl.
    destruct (set2_rect R C M r c (ent M i c)) as (M1 & -> & HM1 & He1);
      [assumption | lia | lia |]. simpl.
    destruct (set2_rect R C M1 i c (ent M r c)) as (M2 & -> & HM2 & He2);
      [assumption | lia | lia |].
    eexists. split; [reflexivity|]. split; [assumption|].
    intros k j. rewrite He2, He1, !HeM. unfold swap_idx.
    repeat case_decide; try reflexivity; try lia;
      repeat match goal with
             | H : _ /\ _ |- _ => destruct H
             | H : ~ (_ /\ _) |- _ => apply not_and_l in H; destruct H
             end; subst; try lia; try congruence; try reflexivity.
  - exists L1. split; [assumption|]. split; assumption.
Qed.
End Reducer.

Ltac split_cases :=
  repeat case_decide;
  repeat match goal with
         | H : _ /\ _ |- _ => destruct H
         | H : ~ (_ /\ _) |- _ => apply not_and_l in H; destruct H
         end;
  subst; try reflexivity; try lia; try congruence; try tauto.

Lemma eliminate_row_spec R C L i k c :
  rect R C L -> (i < R)%nat -> (k < R)%nat -> k <> i ->
  exists L', eliminate_row C i k c L = Ok L' /\ rect R C L' /\
    forall k' j, ent L' k' j
      = if decide (k' = k /\ (i <= j < C)%nat)
        then (if decide (j = i) then 0 else ent L k j + c * ent L i j)
        else ent L k' j.
Proof.
  intros HL Hi Hk Hki. unfold eliminate_row.
  destruct (decide (i <= C)%nat) as [HiC|HiC].
  2:{ rewrite range_nil by lia. exists L. split; [reflexivity|].
      split; [assumption|]. intros k' j. now rewrite decide_False by lia. }
  set (body := fun (j : nat) (M : matrix) => _).
  destruct (for_range_inv
    (fun c0 (M : matrix) =>
       rect R C M /\
       forall k' j, ent M k' j
         = if decide (k' = k /\ (i <= j < c0)%nat)
           then (if decide (j = i) then 0 else ent L k j + c * ent L i j)
           else ent L k' j)
    i C body L) as (L1 & Hrun & HL1 & Hent).
  - exact HiC.
  - split; [assumption|]. intros k' j. now rewrite decide_False by lia.
  - intros j0 M Hj0 (HM & HeM). subst body. simpl.
    case_decide as Hij.
    + subst j0.
      destruct (set2_rect R C M k i 0) as (M1 & -> & HM1 & He1);
        [assumption | lia | lia |].
      eexists. split; [reflexivity|]. split; [assumption|].
      intros k' j. rewrite He1, HeM. split_cases.
    + rewrite !(get2_rect R C) by (assumption || lia). simpl.
      destruct (set2_rect R C M k j0 (ent M k j0 + c * ent M i j0))
        as (M1 & -> & HM1 & He1); [assumption | lia | lia |].
      eexists. split; [reflexivity|]. split; [assumption|].
      intros k' j. rewrite He1, !HeM. split_cases.
  - exists L1. split; [assumption|]. split; assumption.
Qed.

Lemma eliminate_spec R C L i :
  rect R C L -> (i < R)%nat -> (i < C)%nat ->
  exists L2, eliminate R C i L = Ok L2 /\ rect R C L2 /\
    forall k j, ent L2 k j
      = if decide ((i < k < R)%nat /\ (i <= j < C)%nat /\ ent L i i <> 0)
        then (if decide (j = i) then 0
              else ent L k j + (- ent L k i / ent L i i) * ent L i j)
        else ent L k j.
Proof.
  intros HL Hi HiC. unfold eliminate.
  set (body := fun (k : nat) (M : matrix) => _).
  destruct (for_range_inv
    (fun k0 (M : matrix) =>
       rect R C M /\
       forall k j, ent M k j
         = if decide ((i < k < k0)%nat /\ (i <= j < C)%nat /\ ent L i i <> 0)
           then (if decide (j = i) then 0
                 else ent L k j + (- ent L k i / ent L i i) * ent L i j)
           else ent L k j)
    (i + 1) R body L) as (L2 & Hrun & HL2 & Hent).
  - lia.
  - split; [assumption|]. intros k j. now rewrite decide_False by lia.
  - intros k0 M Hk0 (HM & HeM). subst body. simpl.
    rewrite !(get2_rect R C) by (assumption || lia). simpl.
    assert (Hp : ent M i i = ent L i i).
    { rewrite HeM. now rewrite decide_False by lia. }
    assert (Ha : ent M k0 i = ent L k0 i).
    { rewrite HeM. now rewrite decide_False by lia. }
    destruct (decide (ent M i i = 0)) as [Hz|Hz].
    + eexists. split; [reflexivity|]. split; [assumption|].
      intros k j. rewrite HeM. rewrite Hp in Hz. split_cases.
    + unfold py_div. rewrite decide_False by assumption. simpl.
      destruct (eliminate_row_spec R C M i k0 (- ent M k0 i / ent M i i))
        as (M1 & -> & HM1 & He1); [assumption | lia | lia | lia |].
      eexists. split; [reflexivity|]. split; [assumption|].
      intros k j. rewrite He1, Hp, Ha, !HeM. rewrite Hp in Hz.
      split_cases.
  - exists L2. split; [assumption|]. split; assumption.
Qed.

Lemma ent_outside_col R C L k j : rect R C L -> (C <= j)%nat -> ent L k j = 0.
Proof.
  intros HL Hj. unfold ent. destruct (L !! k) as [r|] eqn:Hr; [|reflexivity].
  rewrite lookup_ge_None_2; [reflexivity|].
  rewrite (rect_row _ _ _ _ _ HL Hr). exact Hj.
Qed.

Lemma Qcabs_le_0 a : Qcabs a <= Qcabs 0 -> a = 0.
Proof.
  intros H. apply Qcabs_null. apply Qcle_antisym; [exact H|].
  apply Qcabs_nonneg.
Qed.

Lemma swap_idx_range i r k R :
  (i <= r < R)%nat -> (i <= k < R)%nat -> (i <= swap_idx i r k < R)%nat.
Proof. intros Hr Hk. unfold swap_idx. repeat case_decide; lia. Qed.

Lemma swap_idx_fix i r k : (k < i)%nat -> (i <= r)%nat -> swap_idx i r k = k.
Proof. intros Hk Hr. unfold swap_idx. repeat case_decide; lia. Qed.

Lemma rect_swap_rows R C L i r :
  rect R C L -> (i < R)%nat -> (r < R)%nat ->
  rect R C (swap_rows i r L) /\
  forall k j, ent (swap_rows i r L) k j = ent L (swap_idx i r k) j.
Proof.
  intros HL Hi Hr.
  destruct (rect_lookup _ _ _ _ HL Hi) as (ri & Hri & Hli).
  destruct (rect_lookup _ _ _ _ HL Hr) as (rr & Hrr & Hlr).
  unfold swap_rows. rewrite Hri, Hrr. destruct HL as [HR HF]. split.
  - split; [now rewrite !length_insert|].
    apply Forall_insert; [apply Forall_insert|]; assumption.
  - intros k j. unfold ent, swap_idx.
    destruct (decide (k = i)) as [->|Hki].
    + rewrite list_lookup_insert_eq by (rewrite length_insert; lia).
      now rewrite Hrr.
    + rewrite list_lookup_insert_ne by congruence.
      destruct (decide (k = r)) as [->|Hkr].
      * rewrite list_lookup_insert_eq by lia. now rewrite Hri.
      * now rewrite list_lookup_insert_ne by congruence.
Qed.

(** One pass of the Reducer on a rectangular matrix whose columns before
    [i] are already cleared: the pivot row is a row of largest absolute
    value, the exchange is one of whole rows, and each row below [i]
    receives a multiple of row [i]. *)
Lemma reduce_column_spec R C L i :
  rect R C L -> (i < R)%nat -> (i < C)%nat -> lower_zero R i L ->
  exists r L1 L2,
    pivot_search R i L = Ok r /\ (i <= r < R)%nat /\
    swap_step C i r L = Ok L1 /\ L1 = swap_rows i r L /\
    (ent L1 i i = 0 -> forall k, (i <= k < R)%nat -> ent L k i = 0) /\
    reduce_column R C i L = Ok L2 /\ rect R C L2 /\
    (forall k j, (k < R)%nat -> (j < C)%nat ->
       ent L2 k j = if decide ((i < k)%nat /\ ent L1 i i <> 0)
                    then ent L1 k j + (- ent L1 k i / ent L1 i i) * ent L1 i j
                    else ent L1 k j) /\
    lower_zero R (S i) L2.
Proof.
  intros HL Hi HiC Hz.
  destruct (pivot_search_spec R C L i HL Hi HiC) as (r & Hps & Hr & Hmax).
  destruct (swap_step_spec R C L i r HL Hi) as (L1 & Hsw & HL1 & He1); [lia|].
  destruct (rect_swap_rows R C L i r HL Hi) as (HLs & Hes); [lia|].
  assert (Hfull : forall k j, (k < R)%nat ->
                         ent L1 k j = ent L (swap_idx i r k) j).
  { intros k j Hk. rewrite He1. case_decide as Hj; [reflexivity|].
    destruct (decide (C <= j)%nat) as [HC|HC].
    { now rewrite !(ent_outside_col R C L) by assumption. }
    assert (Hzi : forall k', (i <= k' < R)%nat -> ent L k' j = 0).
    { intros k' Hk'. apply Hz; lia. }
    unfold swap_idx. repeat case_decide; subst; rewrite ?Hzi by lia;
      reflexivity. }
  assert (Heq : L1 = swap_rows i r L).
  { apply (rect_ext R C); [assumption | assumption |].
    intros k j Hk Hj. now rewrite Hfull, Hes. }
  assert (Hpz : ent L1 i i = 0 ->
                forall k, (i <= k < R)%nat -> ent L k i = 0).
  { intros Hp k Hk. rewrite Hfull in Hp by lia.
    replace (swap_idx i r i) with r in Hp
      by (unfold swap_idx; now rewrite decide_True).
    apply Qcabs_le_0. rewrite <- Hp. now apply Hmax. }
  assert (Hrow_i : forall j, (j < i)%nat -> ent L1 i j = 0).
  { intros j Hj. rewrite Hfull by lia. apply Hz; [lia|].
    pose proof (swap_idx_range i r i R). lia. }
  destruct (eliminate_spec R C L1 i HL1 Hi HiC) as (L2 & Hel & HL2 & He2).
  assert (Hform : forall k j, (k < R)%nat -> (j < C)%nat ->
     ent L2 k j = if decide ((i < k)%nat /\ ent L1 i i <> 0)
                  then ent L1 k j + (- ent L1 k i / ent L1 i i) * ent L1 i j
                  else ent L1 k j).
  { intros k j Hk Hj. rewrite He2.
    destruct (decide ((i < k)%nat /\ ent L1 i i <> 0)) as [[Hik Hp]|Hn].
    - destruct (decide (i <= j)%nat) as [Hij|Hij].
      + destruct (decide ((i < k < R)%nat /\ (i <= j < C)%nat /\
                          ent L1 i i <> 0)) as [_|Hn]; [|exfalso; tauto].
        destruct (decide (j = i)) as [->|Hji]; [now field | reflexivity].
      + destruct (decide ((i < k < R)%nat /\ (i <= j < C)%nat /\
                          ent L1 i i <> 0)) as [Hy|_]; [lia|].
        rewrite (Hrow_i j) by lia. ring.
    - destruct (decide ((i < k < R)%nat /\ (i <= j < C)%nat /\
                        ent L1 i i <> 0)) as [Hy|_]; [tauto | reflexivity]. }
  exists r, L1, L2.
  split; [exact Hps|]. split; [lia|]. split; [exact Hsw|].
  split; [exact Heq|]. split; [exact Hpz|].
  split.
  { unfold reduce_column. rewrite Hps. simpl. rewrite Hsw. simpl. exact Hel. }
  split; [exact HL2|]. split; [exact Hform|].
  - intros k j Hj Hk.
    destruct (decide (C <= j)%nat) as [HC|HC].
    { now apply (ent_outside_col R C). }
    rewrite Hform by lia.
    destruct (decide (j = i)) as [->|Hji].
    + destruct (decide (ent L1 i i = 0)) as [Hp|Hp].
      * rewrite decide_False by tauto. rewrite Hfull by lia.
        apply Hpz; [assumption | apply swap_idx_range; lia].
      * rewrite decide_True by (split; [lia | assumption]). now field.
    + assert (Hk0 : ent L1 k j = 0).
      { rewrite Hfull by lia. apply Hz; [lia|].
        destruct (decide (k < i)%nat) as [Hki|Hki].
        - rewrite swap_idx_fix by lia. lia.
        - pose proof (swap_idx_range i r k R). lia. }
      rewrite Hk0, (Hrow_i j) by lia. destruct (decide _); ring.
Qed.

(** The state before pass [n] of the loop of line 17. *)
Lemma reduce_prefix R C L n :
  rect R C L -> (n <= Nat.min C R)%nat ->
  exists Ln, for_each (range 0 n) (reduce_column R C) L = Ok Ln /\
    rect R C Ln /\ lower_zero R n Ln.
Proof.
  intros HL Hn.
  apply (for_range_inv (fun k M => rect R C M /\ lower_zero R k M)).
  - lia.
  - split; [assumption|]. intros k j Hj. lia.
  - intros k M Hk (HM & Hz).
    destruct (reduce_column_spec R C M k) as
      (r & L1 & L2 & _ & _ & _ & _ & _ & Hrun & HL2 & _ & Hz2);
      [assumption | lia | lia | assumption |].
    exists L2. split; [assumption|]. split; assumption.
Qed.

(** C4: in every pass [i] of the Reducer on a matrix of [R] rows of [C]
    items, the exchange loop of lines 27-30, which runs over the columns
    from [i] on, leaves the matrix with rows [i] and [max_row] exchanged
    as whole rows: at that point both rows are zero before column [i]. *)
Theorem swap_step_exchanges_whole_rows R C L i :
  rect R C L -> (i < Nat.min C R)%nat ->
  exists Li max_row,
    for_each (range 0 i) (reduce_column R C) L = Ok Li /\
    for_each (range 0 (Nat.min C R)) (reduce_column R C) L
      = for_each (range i (Nat.min C R)) (reduce_column R C) Li /\
    pivot_search R i Li = Ok max_row /\
    swap_step C i max_row Li = Ok (swap_rows i max_row Li).
Proof.
  intros HL Hi.
  destruct (reduce_prefix R C L i HL) as (Li & Hrun & HLi & Hz); [lia|].
  destruct (reduce_column_spec R C Li i) as
    (r & L1 & L2 & Hps & _ & Hsw & Heq & _); [assumption | lia | lia | assumption |].
  exists Li, r. split; [exact Hrun|]. split.
  - rewrite (range_split 0 i (Nat.min C R)) by lia.
    rewrite for_each_app, Hrun. reflexivity.
  - split; [exact Hps|]. rewrite Hsw. now subst L1.
Qed.

Lemma swap_step_exchanges_whole_rows_witness :
  let L := qmat [[0;2;1];[3;4;5];[6;7;9]]%Z in
  rect 3 3 L /\ (1 < Nat.min 3 3)%nat /\
  exists Li max_row,
    for_each (range 0 1) (reduce_column 3 3) L = Ok Li /\
    for_each (range 0 (Nat.min 3 3)) (reduce_column 3 3) L
      = for_each (range 1 (Nat.min 3 3)) (reduce_column 3 3) Li /\
    pivot_search 3 1 Li = Ok max_row /\
    swap_step 3 1 max_row Li = Ok (swap_rows 1 max_row Li).
Proof.
  assert (H : rect 3 3 (qmat [[0;2;1];[3;4;5];[6;7;9]]%Z)).
  { split; [reflexivity|]. repeat constructor. }
  split; [exact H|]. split; [simpl; lia|].
  apply (swap_step_exchanges_whole_rows 3 3 _ 1 H). simpl; lia.
Defined.

(** * The Deduplicator *)

(** The inner loop never exceeds its bound, never reads outside the list,
    only deletes rows, and deletes none when the rows are distinct. *)
Lemma dedup_inner_spec fuel i j (L : matrix) :
  (i < j)%nat -> (i < length L)%nat -> (length L - j <= fuel)%nat ->
  exists L', dedup_inner fuel i j (length L) L = Ok (L', length L') /\
    L' `sublist_of` L /\ (i < length L')%nat /\ (NoDup L -> L' = L).
Proof.
  revert j L. induction fuel as [|fuel IH]; intros j L Hij Hi Hfuel.
  - simpl. rewrite decide_False by lia. exists L. now repeat split.
  - simpl. destruct (decide (j < length L)%nat) as [Hj|Hj].
    2:{ exists L. now repeat split. }
    destruct (lookup_lt_is_Some_2 L i Hi) as [ri Hri].
    destruct (lookup_lt_is_Some_2 L j Hj) as [rj Hrj].
    unfold idx. rewrite Hri, Hrj. simpl.
    destruct (decide (ri = rj)) as [->|Hne].
    + unfold del_idx. rewrite decide_True by assumption. simpl.
      assert (Hlen : length (delete j L) = (length L - 1)%nat).
      { apply length_delete. eauto. }
      rewrite <- Hlen.
      destruct (IH (j + 1)%nat (delete j L)) as (L' & Hrun & Hsub & Hi' & _);
        [lia | lia | lia |].
      exists L'. split; [exact Hrun|]. split.
      * etransitivity; [exact Hsub | apply sublist_delete].
      * split; [exact Hi'|]. intros Hnd.
        pose proof (NoDup_lookup L i j rj Hnd Hri Hrj). lia.
    + destruct (IH (j + 1)%nat L) as (L' & Hrun & Hsub & Hi' & Hnd);
        [lia | lia | lia |].
      exists L'. now repeat split.
Qed.

Lemma dedup_outer_spec fuel i (L : matrix) :
  (length L - i <= fuel)%nat ->
  exists L', dedup_outer fuel i (length L) L = Ok L' /\
    L' `sublist_of` L /\ (NoDup L -> L' = L).
Proof.
  revert i L. induction fuel as [|fuel IH]; intros i L Hfuel.
  - simpl. rewrite decide_False by lia. exists L. now repeat split.
  - simpl. destruct (decide (i < length L)%nat) as [Hi|Hi].
    2:{ exists L. now repeat split. }
    destruct (dedup_inner_spec (length L - (i + 1)) i (i + 1) L)
      as (L1 & Hrun & Hsub & Hi1 & Hnd); [lia | lia | lia |].
    rewrite Hrun. simpl.
    pose proof (sublist_length _ _ Hsub) as Hlen.
    destruct (IH (i + 1)%nat L1) as (L' & Hrun' & Hsub' & Hnd'); [lia|].
    exists L'. split; [exact Hrun'|]. split.
    + etransitivity; eassumption.
    + intros HL. specialize (Hnd HL). subst L1. now apply Hnd'.
Qed.

(** The Deduplicator returns on every matrix; what it returns is the
    input with some rows deleted, and the input itself when no two rows
    are equal. *)
Lemma remove_duplicate_spec (L : matrix) :
  exists L', remove_duplicate_row_echelon_form L = Ok L' /\
    L' `sublist_of` L /\ (NoDup L -> L' = L).
Proof. apply dedup_outer_spec. lia. Qed.

(** * The rank of a zero matrix *)

Lemma rect_zeros R C : rect R C (zeros R C).
Proof.
  split; [apply length_replicate|].
  apply Forall_forall. intros r Hr.
  apply elem_of_replicate in Hr as [-> _]. apply length_replicate.
Qed.

Lemma ent_zeros R C k j : ent (zeros R C) k j = 0.
Proof.
  unfold ent, zeros. destruct (replicate R _ !! k) as [r|] eqn:Hr; [|reflexivity].
  apply lookup_replicate in Hr as [-> _].
  destruct (replicate C 0 !! j) as [v|] eqn:Hv; [|reflexivity].
  now apply lookup_replicate in Hv as [-> _].
Qed.

Lemma reduce_zeros R C n :
  (n <= Nat.min C R)%nat ->
  for_each (range 0 n) (reduce_column R C) (zeros R C) = Ok (zeros R C).
Proof.
  intros Hn.
  destruct (for_range_inv (fun (_ : nat) M => M = zeros R C) 0 n
              (reduce_column R C) (zeros R C)) as (M & Hrun & ->).
  - lia.
  - reflexivity.
  - intros k M Hk ->.
    destruct (reduce_column_spec R C (zeros R C) k) as
      (r & L1 & L2 & _ & Hr & _ & Heq & _ & Hrun & HL2 & Hform & _).
    + apply rect_zeros.
    + lia.
    + lia.
    + intros k' j _ _. apply ent_zeros.
    + exists L2. split; [exact Hrun|].
      apply (rect_ext R C); [exact HL2 | apply rect_zeros |].
      intros k' j Hk' Hj. rewrite Hform, ent_zeros by assumption.
      destruct (rect_swap_rows R C (zeros R C) k r) as (_ & Hes);
        [apply rect_zeros | lia | lia |].
      assert (Hz1 : forall a b, ent L1 a b = 0).
      { intros a b. subst L1. rewrite Hes. apply ent_zeros. }
      rewrite !Hz1. destruct (decide _); ring.
  - exact Hrun.
Qed.

Lemma set_eqb_zero_row C : (0 < C)%nat -> set_eqb (replicate C 0) [0] = true.
Proof.
  intros HC. unfold set_eqb. apply andb_true_intro. split.
  - apply forallb_forall. intros x Hx.
    apply list_elem_of_In, elem_of_replicate in Hx as [-> _].
    cbn [existsb]. rewrite bool_decide_eq_true_2 by reflexivity. reflexivity.
  - destruct C as [|C]; [lia|]. cbn [replicate forallb existsb].
    rewrite bool_decide_eq_true_2 by reflexivity. reflexivity.
Qed.

(** C9: the rank of a zero matrix with at least one row and one column
    is 0. *)
Theorem rank_zero_matrix R C :
  (0 < R)%nat -> (0 < C)%nat -> rank (zeros R C) = Ok 0%nat.
Proof.
  intros HR HC. unfold rank, row_echelon_form.
  assert (Hlen : length (zeros R C) = R) by apply length_replicate.
  rewrite Hlen. rewrite decide_False by lia.
  assert (H0 : zeros R C !! 0%nat = Some (replicate C 0)).
  { apply lookup_replicate. split; [reflexivity | lia]. }
  unfold idx. rewrite H0. simpl.
  assert (HlenC : length (replicate C 0) = C) by apply length_replicate.
  rewrite HlenC, reduce_zeros by lia. simpl.
  destruct (remove_duplicate_spec (zeros R C)) as (L' & -> & Hsub & _).
  simpl. f_equal.
  assert (HF : Forall (fun r => r = replicate C 0) L').
  { apply Forall_forall. intros r Hr.
    apply (elem_of_sublist _ _ _ Hr) in Hsub.
    now apply elem_of_replicate in Hsub as [-> _]. }
  clear Hsub. induction HF as [|r L'' -> _ IH]; [reflexivity|].
  rewrite filter_cons_False; [exact IH|].
  rewrite set_eqb_zero_row by assumption. simpl. tauto.
Qed.

Lemma rank_zero_matrix_witness :
  (0 < 3)%nat /\ (0 < 2)%nat /\ rank (zeros 3 2) = Ok 0%nat.
Proof.
  split; [lia|]. split; [lia|]. apply (rank_zero_matrix 3 2); lia.
Defined.

(** * The unsolvable outcome *)

(** C5, amended: when the matrix after the completion of lines 91-104 has
    fewer than [num_cols - 2] rows, the solver prints the diagnostic and
    returns a list of [num_rows] [None]s, one per row of that matrix. *)
Theorem unsolvable_one_none_per_row (R R' : matrix) (r0 r0' : row) :
  R !! 0%nat = Some r0 ->
  completion (length R) (length r0) R = Ok R' ->
  R' !! 0%nat = Some r0' ->
  (Z.of_nat (length R') < Z.of_nat (length r0') - 2)%Z ->
  solve_row_echelon_form (Some R)
    = Ok ([diagnostic], Some (replicate (length R') None)).
Proof.
  intros H0 Hc H0' Hlt. unfold solve_row_echelon_form.
  assert (length R <> 0%nat).
  { destruct R; [discriminate | simpl; lia]. }
  rewrite decide_False by assumption.
  unfold idx. rewrite H0. simpl. rewrite Hc. simpl. rewrite H0'. simpl.
  rewrite decide_True by lia. rewrite decide_False by lia. reflexivity.
Qed.

Lemma unsolvable_one_none_per_row_witness :
  let R := qmat [[1;0;0;0;0]]%Z in
  solve_row_echelon_form (Some R)
    = Ok ([diagnostic], Some (replicate (length R) None)).
Proof.
  apply (unsolvable_one_none_per_row
           (qmat [[1;0;0;0;0]]%Z) (qmat [[1;0;0;0;0]]%Z)
           (map qz [1;0;0;0;0]%Z) (map qz [1;0;0;0;0]%Z)).
  - reflexivity.
  - vm_compute. reflexivity.
  - reflexivity.
  - simpl. lia.
Defined.

(** * Sums and products of vectors *)

Lemma sumf_ext f g n :
  (forall j, (j < n)%nat -> f j = g j) -> sumf f n = sumf g n.
Proof.
  induction n as [|n IH]; intros H; simpl; [reflexivity|].
  rewrite IH by (intros; apply H; lia). rewrite (H n) by lia. reflexivity.
Qed.

Lemma sumf_zero f n : (forall j, (j < n)%nat -> f j = 0) -> sumf f n = 0.
Proof.
  induction n as [|n IH]; intros H; simpl; [reflexivity|].
  rewrite IH by (intros; apply H; lia). rewrite (H n) by lia. ring.
Qed.

Lemma sumf_plus f g n : sumf (fun j => f j + g j) n = sumf f n + sumf g n.
Proof. induction n as [|n IH]; simpl; [ring | rewrite IH; ring]. Qed.

Lemma sumf_scale c f n : sumf (fun j => c * f j) n = c * sumf f n.
Proof. induction n as [|n IH]; simpl; [ring | rewrite IH; ring]. Qed.

(** Two summands that differ at one index only. *)
Lemma sumf_point p f g n :
  (p < n)%nat -> (forall j, (j < n)%nat -> j <> p -> g j = f j) ->
  sumf g n = sumf f n + (g p - f p).
Proof.
  induction n as [|n IH]; intros Hp H; [lia|]. simpl.
  destruct (decide (p = n)) as [->|Hne].
  - rewrite (sumf_ext g f) by (intros; apply H; lia). ring.
  - rewrite IH by (lia || (intros; apply H; lia)).
    rewrite (H n) by lia. ring.
Qed.

Lemma sumf_shift f n : sumf f (S n) = f 0%nat + sumf (fun j => f (S j)) n.
Proof.
  induction n as [|n IH]; [simpl; ring|].
  change (sumf f (S (S n))) with (sumf f (S n) + f (S n)).
  rewrite IH. simpl. ring.
Qed.

Lemma dot_sumf r x :
  dot r x = sumf (fun j => at0 r j * at0 x j) (length r).
Proof.
  revert x. induction r as [|a r IH]; intros x; [reflexivity|].
  cbn [length]. rewrite sumf_shift. destruct x as [|b x].
  - simpl. rewrite sumf_zero; [unfold at0; simpl; ring|].
    intros j _. unfold at0. simpl. ring.
  - cbn [dot]. rewrite IH. reflexivity.
Qed.

(** * Subscripts that cannot be negative *)

Lemma norm_index_nat len j :
  norm_index len (Z.of_nat j)
  = if decide (j < len)%nat then Some j else None.
Proof.
  unfold norm_index.
  destruct (decide (Z.of_nat j < 0)%Z) as [Hneg|_]; [lia|].
  destruct (decide (0 <= Z.of_nat j < Z.of_nat len)%Z),
    (decide (j < len)%nat); try lia; [|reflexivity].
  now rewrite Nat2Z.id.
Qed.

Lemma idxZ_nat {A} (l : list A) j : idxZ l (Z.of_nat j) = idx l j.
Proof.
  unfold idxZ. rewrite norm_index_nat. case_decide; [reflexivity|].
  unfold idx. now rewrite lookup_ge_None_2 by lia.
Qed.

Lemma set_idxZ_nat {A} (l : list A) j v :
  set_idxZ l (Z.of_nat j) v = set_idx l j v.
Proof.
  unfold set_idxZ. rewrite norm_index_nat. case_decide; [reflexivity|].
  unfold set_idx. now rewrite decide_False by lia.
Qed.

Lemma get2Z_nat L k j : get2Z L k (Z.of_nat j) = get2 L k j.
Proof.
  unfold get2Z, get2. destruct (idx L k); simpl; [apply idxZ_nat | reflexivity].
Qed.

Lemma set2Z_nat L k j v : set2Z L k (Z.of_nat j) v = set2 L k j v.
Proof.
  unfold set2Z, set2. destruct (idx L k); simpl; [|reflexivity].
  now rewrite set_idxZ_nat.
Qed.

(** * Back-substitution *)

Lemma at0_insert x i v j :
  (i < length x)%nat ->
  at0 (<[i := v]> x) j = if decide (j = i) then v else at0 x j.
Proof.
  intros Hi. unfold at0. destruct (decide (j = i)) as [->|Hne].
  - now rewrite list_lookup_insert_eq.
  - now rewrite list_lookup_insert_ne by congruence.
Qed.

Lemma tail_sum_step M n i k x v :
  (i < n)%nat -> length x = n ->
  tail_sum M n i k (<[i := v]> x) = tail_sum M n (S i) k x + ent M k i * v.
Proof.
  intros Hi Hx. unfold tail_sum.
  rewrite (sumf_point i
             (fun j => if decide (S i <= j)%nat
                       then ent M k j * at0 x j else 0)) by
    (try lia; intros j Hj Hne; rewrite at0_insert by lia;
     repeat case_decide; try lia; reflexivity).
  rewrite at0_insert by lia.
  rewrite (decide_True (P := (i <= i)%nat)) by lia.
  rewrite (decide_True (P := i = i)) by reflexivity.
  rewrite (decide_False (P := (S i <= i)%nat)) by lia. ring.
Qed.

Lemma tail_sum_insert_below M n i k0 k x v :
  (i < k0)%nat -> (i < length x)%nat ->
  tail_sum M n k0 k (<[i := v]> x) = tail_sum M n k0 k x.
Proof.
  intros Hi Hx. unfold tail_sum. apply sumf_ext. intros j Hj.
  case_decide; [|reflexivity]. rewrite at0_insert by lia.
  now rewrite decide_False by lia.
Qed.

Lemma tail_sum_end M n k x : tail_sum M n n k x = 0.
Proof.
  unfold tail_sum. apply sumf_zero. intros j Hj. now rewrite decide_False by lia.
Qed.

(** Lines 149-150 for one solved variable: the right-hand sides of the
    rows above [i] lose [R[j][i] * v]. *)
Lemma substitute_above n R i (x : list Qc) v :
  rect n (n + 1) R -> (i < n)%nat -> x !! i = Some v ->
  exists R',
    for_each (rev (range 0 i))
      (fun j R =>
         cur <- get2Z R j (Z.of_nat n) ;;
         a <- get2 R j i ;;
         xi <- idx x i ;;
         set2Z R j (Z.of_nat n) (cur - a * xi)) R = Ok R' /\
    rect n (n + 1) R' /\
    forall k j, ent R' k j
      = if decide ((k < i)%nat /\ j = n) then ent R k n - ent R k i * v
        else ent R k j.
Proof.
  intros HR Hi Hx.
  set (body := fun (j : nat) (R : matrix) => _).
  destruct (for_rev_range_inv
    (fun j0 (Rc : matrix) =>
       rect n (n + 1) Rc /\
       forall k j, ent Rc k j
         = if decide ((j0 <= k < i)%nat /\ j = n)
           then ent R k n - ent R k i * v else ent R k j)
    i body R) as (R' & Hrun & HR' & He).
  - split; [assumption|]. intros k j. now rewrite decide_False by lia.
  - intros k0 Rc Hk0 (HRc & Hec). subst body. cbv beta.
    rewrite get2Z_nat.
    rewrite (get2_rect n (n + 1)) by (assumption || lia). cbn [bind].
    rewrite (get2_rect n (n + 1)) by (assumption || lia). cbn [bind].
    unfold idx at 1. rewrite Hx. cbn [bind]. rewrite set2Z_nat.
    destruct (set2_rect n (n + 1) Rc k0 n (ent Rc k0 n - ent Rc k0 i * v))
      as (R1 & -> & HR1 & He1); [assumption | lia | lia |].
    eexists. split; [reflexivity|]. split; [assumption|].
    intros k j. rewrite He1, !Hec. split_cases.
  - exists R'. split; [exact Hrun|]. split; [exact HR'|].
    intros k j. rewrite He. split_cases.
Qed.

(** Back-substitution on [n] equations in [n] unknowns with a non-zero
    diagonal: no variable is dropped, and each equation holds from its
    diagonal entry on. *)
Lemma back_substitute_spec n M :
  rect n (n + 1) M -> (forall j, (j < n)%nat -> ent M j j <> 0) ->
  exists x, back_substitute n (n + 1) M = Ok x /\ length x = n /\
    forall k, (k < n)%nat -> tail_sum M n k k x = ent M k n.
Proof.
  intros HM Hd. unfold back_substitute.
  replace (Z.of_nat (n + 1) - 1)%Z with (Z.of_nat n) by lia.
  set (body := fun (i : nat) (st : matrix * list Qc) => _).
  destruct (for_rev_range_inv
    (fun i (st : matrix * list Qc) =>
       rect n (n + 1) (fst st) /\ length (snd st) = n /\
       (forall k j, (j < n)%nat -> ent (fst st) k j = ent M k j) /\
       (forall k, (k < i)%nat ->
          ent (fst st) k n = ent M k n - tail_sum M n i k (snd st)) /\
       (forall k, (i <= k < n)%nat -> tail_sum M n k k (snd st) = ent M k n))
    n body (M, replicate n 0)) as ([R x] & Hrun & _ & Hx & _ & _ & Hsol).
  - cbn [fst snd]. split; [assumption|]. split; [apply length_replicate|].
    split; [reflexivity|]. split; [|intros; lia].
    intros k _. rewrite tail_sum_end. ring.
  - intros i [R x] Hi (HR & Hx & HA & Hrhs & Hsol). cbn [fst snd] in *.
    subst body. cbv beta iota zeta.
    rewrite Z.min_l by lia. rewrite !get2Z_nat.
    rewrite (get2_rect n (n + 1)) by (assumption || lia). cbn [bind].
    assert (Hp : ent R i i <> 0) by (rewrite HA by lia; now apply Hd).
    rewrite decide_False by assumption.
    rewrite (get2_rect n (n + 1)) by (assumption || lia). cbn [bind].
    unfold py_div. rewrite decide_False by assumption. cbn [bind].
    unfold set_idx. rewrite decide_True by lia. cbn [bind].
    set (v := ent R i n / ent R i i).
    destruct (substitute_above n R i (<[i := v]> x) v)
      as (R' & -> & HR' & He);
      [assumption | assumption | now apply list_lookup_insert_eq; lia |].
    cbn [bind]. eexists. split; [reflexivity|]. cbn [fst snd].
    split; [assumption|]. split; [now rewrite length_insert|].
    split; [|split].
    + intros k j Hj. rewrite He. rewrite decide_False by lia. now apply HA.
    + intros k Hk. rewrite He. rewrite decide_True by (split; [lia | reflexivity]).
      rewrite tail_sum_step by assumption.
      rewrite Hrhs by lia. rewrite (HA k i) by lia. ring.
    + intros k Hk. destruct (decide (k = i)) as [->|Hne].
      * rewrite tail_sum_step by assumption.
        assert (Hr := Hrhs i). rewrite <- (HA i i) by lia.
        assert (Hv : ent R i i * v = ent R i n) by (unfold v; now field).
        rewrite Hv, Hr by lia. ring.
      * rewrite tail_sum_insert_below by lia. apply Hsol. lia.
  - cbn [fst snd] in *. rewrite Hrun. cbn [bind snd].
    exists x. split; [reflexivity|]. split; [assumption|].
    intros k Hk. apply Hsol. lia.
Qed.

(** * Row operations keep the solutions *)

Lemma swap_idx_invol i r k : swap_idx i r (swap_idx i r k) = k.
Proof. unfold swap_idx. repeat case_decide; congruence. Qed.

Lemma swap_idx_lt i r k R :
  (i < R)%nat -> (r < R)%nat -> (k < R)%nat -> (swap_idx i r k < R)%nat.
Proof. intros. unfold swap_idx. repeat case_decide; lia. Qed.

Lemma lin_combination C L2 L1 k i c v :
  (forall j, (j < C)%nat -> ent L2 k j = ent L1 k j + c * ent L1 i j) ->
  lin C L2 k v = lin C L1 k v + c * lin C L1 i v.
Proof.
  intros H. unfold lin. rewrite <- sumf_scale, <- sumf_plus.
  apply sumf_ext. intros j Hj. rewrite H by assumption. ring.
Qed.

Lemma lin_same C L2 L1 k k' v :
  (forall j, (j < C)%nat -> ent L2 k j = ent L1 k' j) ->
  lin C L2 k v = lin C L1 k' v.
Proof.
  intros H. unfold lin. apply sumf_ext. intros j Hj. now rewrite H.
Qed.

(** The equations after a pass have the solutions of the equations
    before it. *)
Lemma reduce_column_solutions R C L i r L2 (c : nat -> Qc) v :
  rect R C L -> (i < R)%nat -> (r < R)%nat ->
  (forall k j, (k < R)%nat -> (j < C)%nat ->
     ent L2 k j
     = if decide ((i < k)%nat /\ ent (swap_rows i r L) i i <> 0)
       then ent (swap_rows i r L) k j + c k * ent (swap_rows i r L) i j
       else ent (swap_rows i r L) k j) ->
  (forall k, (k < R)%nat -> lin C L2 k v = 0) <->
  (forall k, (k < R)%nat -> lin C L k v = 0).
Proof.
  intros HL Hi Hr Hform.
  destruct (rect_swap_rows R C L i r HL Hi Hr) as (_ & Hes).
  set (L1 := swap_rows i r L) in *.
  assert (H1 : forall k, lin C L1 k v = lin C L (swap_idx i r k) v).
  { intros k. apply lin_same. intros j _. apply Hes. }
  assert (H2 : forall k, (k < R)%nat ->
            lin C L2 k v
            = if decide ((i < k)%nat /\ ent L1 i i <> 0)
              then lin C L1 k v + c k * lin C L1 i v else lin C L1 k v).
  { intros k Hk.
    destruct (decide ((i < k)%nat /\ ent L1 i i <> 0)) as [Hy|Hn].
    - apply lin_combination. intros j Hj. rewrite Hform by assumption.
      destruct (decide ((i < k)%nat /\ ent L1 i i <> 0)); tauto.
    - apply lin_same. intros j Hj. rewrite Hform by assumption.
      destruct (decide ((i < k)%nat /\ ent L1 i i <> 0)); tauto. }
  split; intros H.
  - assert (Hi1 : lin C L1 i v = 0).
    { rewrite <- (H i Hi), (H2 i Hi).
      destruct (decide ((i < i)%nat /\ ent L1 i i <> 0)); [lia | reflexivity]. }
    assert (Hall : forall k, (k < R)%nat -> lin C L1 k v = 0).
    { intros k Hk. pose proof (H k Hk) as Hk2. rewrite (H2 k Hk) in Hk2.
      destruct (decide ((i < k)%nat /\ ent L1 i i <> 0)); [|exact Hk2].
      rewrite Hi1 in Hk2. rewrite <- Hk2. ring. }
    intros k Hk. rewrite <- (swap_idx_invol i r k), <- H1.
    apply Hall. now apply swap_idx_lt.
  - assert (Hall : forall k, (k < R)%nat -> lin C L1 k v = 0).
    { intros k Hk. rewrite H1. apply H. now apply swap_idx_lt. }
    intros k Hk. rewrite (H2 k Hk).
    destruct (decide ((i < k)%nat /\ ent L1 i i <> 0)).
    + rewrite !Hall by assumption. ring.
    + now apply Hall.
Qed.

(** * A triangular block with a non-zero diagonal *)

(** The first [i] equations of a system that is triangular with a
    non-zero diagonal there can be met whatever the values [w] of the
    variables from [i] on. *)
Lemma triangular_solve (U : nat -> nat -> Qc) (N i : nat) (w : nat -> Qc) :
  (i <= N)%nat ->
  (forall k, (k < i)%nat -> U k k <> 0) ->
  (forall k j, (j < k)%nat -> (k < i)%nat -> U k j = 0) ->
  forall m, (m <= i)%nat ->
  exists v, (forall j, (i <= j)%nat -> v j = w j) /\
    forall k, (i - m <= k < i)%nat -> sumf (fun j => U k j * v j) N = 0.
Proof.
  intros HiN Hd Hlow. induction m as [|m IH]; intros Hm.
  - exists w. split; [reflexivity|]. intros k Hk. lia.
  - destruct IH as (v & Hv & Hrows); [lia|].
    set (p := (i - S m)%nat).
    set (s := sumf (fun j => U p j * v j) N).
    exists (fupd v p (v p - s / U p p)). split.
    + intros j Hj. unfold fupd. rewrite decide_False by lia. now apply Hv.
    + intros k Hk.
      rewrite (sumf_point p (fun j => U k j * v j)).
      2: lia.
      2:{ intros j _ Hne. unfold fupd. now rewrite decide_False. }
      unfold fupd. rewrite (decide_True (P := p = p)) by reflexivity.
      destruct (decide (k = p)) as [->|Hne].
      * fold s. field. apply Hd. lia.
      * rewrite Hrows by lia. rewrite (Hlow k p) by lia. ring.
Qed.

(** * The augmented matrix *)

Lemma augment_lookup A b k r bk :
  A !! k = Some r -> b !! k = Some bk -> augment A b !! k = Some (r ++ [bk]).
Proof.
  intros Hr Hb. unfold augment. rewrite lookup_zip_with, Hr. simpl.
  now rewrite Hb.
Qed.

Lemma rect_augment n A b :
  rect n n A -> length b = n -> rect n (n + 1) (augment A b).
Proof.
  intros [HA HF] Hb. split.
  - unfold augment. rewrite length_zip_with. lia.
  - apply Forall_lookup. intros k r Hr. unfold augment in Hr.
    apply lookup_zip_with_Some in Hr as (ra & bk & -> & Hra & _).
    rewrite length_app. simpl.
    rewrite Forall_lookup in HF. rewrite (HF _ _ Hra). reflexivity.
Qed.

Lemma ent_augment n A b k :
  rect n n A -> length b = n -> (k < n)%nat ->
  (forall j, (j < n)%nat -> ent (augment A b) k j = ent A k j) /\
  ent (augment A b) k n = at0 b k.
Proof.
  intros HA Hb Hk.
  destruct (rect_lookup _ _ _ _ HA Hk) as (r & Hr & Hlen).
  destruct (lookup_lt_is_Some_2 b k) as [bk Hbk]; [lia|].
  pose proof (augment_lookup A b k r bk Hr Hbk) as Ha.
  unfold ent, at0. rewrite Ha, Hr, Hbk. split.
  - intros j Hj. now rewrite lookup_app_l by lia.
  - rewrite lookup_app_r by lia. rewrite Hlen, Nat.sub_diag. reflexivity.
Qed.

(** Equation [k] of [[A|b]] at a point whose last coordinate is [t]. *)
Lemma lin_augment n A b k v :
  rect n n A -> length b = n -> (k < n)%nat ->
  lin (n + 1) (augment A b) k v
  = sumf (fun j => ent A k j * v j) n + at0 b k * v n.
Proof.
  intros HA Hb Hk. unfold lin. rewrite Nat.add_1_r. cbn [sumf].
  destruct (ent_augment n A b k HA Hb Hk) as (He & ->).
  f_equal. apply sumf_ext. intros j Hj. now rewrite He.
Qed.

Lemma at0_map_seq (v : nat -> Qc) n j :
  (j < n)%nat -> at0 (map v (seq 0 n)) j = v j.
Proof.
  intros Hj. unfold at0. rewrite list_lookup_fmap, lookup_seq_lt by lia.
  reflexivity.
Qed.

Lemma mat_vec_lookup n A x k :
  rect n n A -> (k < n)%nat ->
  mat_vec A x !! k = Some (sumf (fun j => ent A k j * at0 x j) n).
Proof.
  intros HA Hk. destruct (rect_lookup _ _ _ _ HA Hk) as (r & Hr & Hlen).
  unfold mat_vec. rewrite list_lookup_fmap, Hr. simpl. f_equal.
  rewrite dot_sumf, Hlen. apply sumf_ext. intros j Hj.
  unfold ent. rewrite Hr. reflexivity.
Qed.

Lemma mat_vec_eq n A x c :
  rect n n A -> length c = n ->
  (forall k, (k < n)%nat -> sumf (fun j => ent A k j * at0 x j) n = at0 c k) ->
  mat_vec A x = c.
Proof.
  intros HA Hc H. apply list_eq. intros k.
  destruct (decide (k < n)%nat) as [Hk|Hk].
  - rewrite (mat_vec_lookup n) by assumption. rewrite H by assumption.
    unfold at0. destruct (lookup_lt_is_Some_2 c k) as [ck ->]; [lia|].
    reflexivity.
  - rewrite !lookup_ge_None_2; [reflexivity | lia |].
    unfold mat_vec. rewrite length_map. destruct HA as [-> _]. lia.
Qed.

Lemma mat_vec_at0 n A x c k :
  rect n n A -> (k < n)%nat -> mat_vec A x = c ->
  sumf (fun j => ent A k j * at0 x j) n = at0 c k.
Proof.
  intros HA Hk <-. unfold at0 at 2.
  now rewrite (mat_vec_lookup n) by assumption.
Qed.

(** * The Reducer on a system of full rank *)

Section FullRank.
Context (n : nat) (A : matrix) (b : list Qc).
Hypothesis HA : rect n n A.
Hypothesis Hb : length b = n.
Hypothesis Hfr : full_rank n A.

(** With the columns before [i] cleared, column [i] cannot vanish from
    row [i] down: the system would have a solution other than 0 for
    [b = 0]. *)
Lemma pivot_column_nonzero M i :
  rect n (n + 1) M -> (i < n)%nat -> lower_zero n i M ->
  (forall j, (j < i)%nat -> ent M j j <> 0) -> same_solutions n A b M ->
  ~ (forall k, (i <= k < n)%nat -> ent M k i = 0).
Proof.
  intros HM Hi Hz Hd Hs Hcol.
  set (w := fun j : nat => if decide (j = i) then 1 else 0 : Qc).
  destruct (triangular_solve (ent M) (n + 1) i w) with (m := i)
    as (v & Hv & Hrows); [lia | assumption | | lia |].
  { intros k j Hj Hk. apply Hz; lia. }
  assert (HM0 : forall k, (k < n)%nat -> lin (n + 1) M k v = 0).
  { intros k Hk. destruct (decide (k < i)%nat) as [Hki|Hki].
    - apply Hrows. lia.
    - unfold lin. apply sumf_zero. intros j Hj.
      destruct (decide (j < i)%nat) as [Hji|Hji].
      + rewrite Hz by lia. ring.
      + rewrite Hv by lia. unfold w.
        destruct (decide (j = i)) as [->|Hne]; [|ring].
        rewrite Hcol by lia. ring. }
  pose proof (proj1 (Hs v) HM0) as HL0. clear HM0.
  assert (Hvn : v n = 0).
  { rewrite Hv by lia. unfold w. now rewrite decide_False by lia. }
  assert (Hker : mat_vec A (map v (seq 0 n)) = replicate n 0).
  { apply (mat_vec_eq n); [assumption | apply length_replicate |].
    intros k Hk. specialize (HL0 k Hk).
    rewrite lin_augment, Hvn in HL0 by assumption.
    unfold at0 at 2. rewrite lookup_replicate_2 by assumption. simpl.
    rewrite <- HL0.
    rewrite (sumf_ext _ (fun j => ent A k j * v j))
      by (intros j Hj; now rewrite at0_map_seq).
    ring. }
  apply Hfr in Hker; [|now rewrite length_map, length_seq].
  assert (H1 : at0 (map v (seq 0 n)) i = 1).
  { rewrite at0_map_seq, Hv by lia. unfold w. now rewrite decide_True. }
  rewrite Hker in H1. unfold at0 in H1.
  rewrite lookup_replicate_2 in H1 by assumption. discriminate H1.
Qed.

(** The state before pass [m] of the Reducer on [[A|b]]. *)
Lemma reduce_full_rank m :
  (m <= n)%nat ->
  exists M,
    for_each (range 0 m) (reduce_column n (n + 1)) (augment A b) = Ok M /\
    rect n (n + 1) M /\ lower_zero n m M /\
    (forall j, (j < m)%nat -> ent M j j <> 0) /\ same_solutions n A b M.
Proof.
  intros Hm.
  apply (for_range_inv
    (fun k M => rect n (n + 1) M /\ lower_zero n k M /\
                (forall j, (j < k)%nat -> ent M j j <> 0) /\
                same_solutions n A b M)).
  - lia.
  - split; [now apply rect_augment|]. split; [intros k j Hj; lia|].
    split; [intros j Hj; lia|]. intros v. reflexivity.
  - intros k M Hk (HM & Hz & Hd & Hs).
    destruct (reduce_column_spec n (n + 1) M k) as
      (r & L1 & L2 & _ & Hr & _ & Heq & Hpz & Hrun & HL2 & Hform & Hz2);
      [assumption | lia | lia | assumption |].
    assert (Hp : ent L1 k k <> 0).
    { intros Hp0. apply (pivot_column_nonzero M k); try assumption; [lia|].
      exact (Hpz Hp0). }
    destruct (rect_swap_rows n (n + 1) M k r HM) as (_ & Hes); [lia | lia |].
    exists L2. split; [exact Hrun|]. split; [exact HL2|].
    split; [exact Hz2|]. split.
    + intros j Hj. rewrite Hform by lia.
      destruct (decide ((k < j)%nat /\ ent L1 k k <> 0)) as [[Hkj _]|_]; [lia|].
      destruct (decide (j = k)) as [->|Hne]; [exact Hp|].
      subst L1. rewrite Hes, swap_idx_fix by lia. apply Hd. lia.
    + intros v. rewrite <- (Hs v). subst L1.
      apply (reduce_column_solutions n (n + 1) M k r L2
               (fun k' => - ent (swap_rows k r M) k' k
                          / ent (swap_rows k r M) k k));
        [assumption | lia | lia | exact Hform].
Qed.
End FullRank.

(** * Solving a square system of full rank *)

(** The rows of a triangular matrix with a non-zero diagonal are
    distinct, so the Deduplicator leaves it alone. *)
Lemma triangular_NoDup n C M :
  rect n C M -> lower_zero n n M ->
  (forall j, (j < n)%nat -> ent M j j <> 0) -> NoDup M.
Proof.
  intros HM Hz Hd.
  assert (Hlt : forall i j r, (i < j)%nat ->
                  M !! i = Some r -> M !! j = Some r -> False).
  { intros i j r Hij Hi Hj.
    assert (Hjn : (j < n)%nat).
    { destruct HM as [<- _]. now apply lookup_lt_is_Some_1; eauto. }
    apply (Hd i); [lia|].
    transitivity (ent M j i); [|apply Hz; lia].
    unfold ent. now rewrite Hi, Hj. }
  apply NoDup_alt. intros i j r Hi Hj.
  destruct (Nat.lt_trichotomy i j) as [H|[H|H]]; [|exact H|].
  - destruct (Hlt i j r H Hi Hj).
  - destruct (Hlt j i r H Hj Hi).
Qed.

Lemma at0_ext (x y : list Qc) :
  length x = length y ->
  (forall j, (j < length x)%nat -> at0 x j = at0 y j) -> x = y.
Proof.
  intros Hlen H. apply list_eq. intros j.
  destruct (decide (j < length x)%nat) as [Hj|Hj].
  - specialize (H j Hj). unfold at0 in H.
    destruct (lookup_lt_is_Some_2 x j Hj) as [a Ha].
    destruct (lookup_lt_is_Some_2 y j) as [c Hc]; [lia|].
    rewrite Ha, Hc in *. simpl in H. congruence.
  - rewrite !lookup_ge_None_2 by lia. reflexivity.
Qed.

Lemma at0_replicate n j : at0 (replicate n 0) j = 0.
Proof.
  unfold at0. destruct (replicate n 0 !! j) as [a|] eqn:E; [|reflexivity].
  now apply lookup_replicate in E as [-> _].
Qed.

Lemma at0_minus (y x : list Qc) j :
  length y = length x ->
  at0 (zip_with Qcminus y x) j = at0 y j - at0 x j.
Proof.
  intros Hlen. unfold at0. rewrite lookup_zip_with.
  destruct (decide (j < length y)%nat) as [Hj|Hj].
  - destruct (lookup_lt_is_Some_2 y j Hj) as [a ->].
    destruct (lookup_lt_is_Some_2 x j) as [c ->]; [lia|]. reflexivity.
  - rewrite !lookup_ge_None_2 by lia. simpl. ring.
Qed.

Lemma lin_split n M k v :
  lin (n + 1) M k v = sumf (fun j => ent M k j * v j) n + ent M k n * v n.
Proof. unfold lin. rewrite Nat.add_1_r. reflexivity. Qed.


Lemma cons_eq_inv {X} (a c : X) l l' : a :: l = c :: l' -> a = c /\ l = l'.
Proof. intros H. injection H. auto. Qed.

Lemma full_rank_example : full_rank 2 A_example.
Proof.
  intros x Hlen H.
  destruct x as [|x1 [|x2 [|? ?]]]; try discriminate Hlen.
  unfold mat_vec, A_example in H. cbn [map dot] in H.
  apply cons_eq_inv in H as [H1 H]. apply cons_eq_inv in H as [H2 _].
  assert (E2 : x2 = 0).
  { assert (E : (1 + 1 + 1 + 1 + 1) * x2 = 0).
    { transitivity ((1 + 1) * (1 * x1 + ((1 + 1 + 1) * x2 + 0))
                    - ((1 + 1) * x1 + (1 * x2 + 0))); [ring|].
      rewrite H1, H2. ring. }
    apply Qcmult_integral in E as [E|E]; [discriminate E | exact E]. }
  subst x2.
  assert (E1 : x1 = 0).
  { transitivity (1 * x1 + ((1 + 1 + 1) * 0 + 0)); [ring | exact H2]. }
  subst x1. reflexivity.
Qed.


(** * More on the Deduplicator *)

Lemma elem_of_delete_dup {X} (L : list X) i j r x :
  (i < j)%nat -> L !! i = Some r -> L !! j = Some r ->
  x ∈ L -> x ∈ delete j L.
Proof.
  intros Hij Hi Hj Hx. apply list_elem_of_lookup in Hx as [m Hm].
  destruct (decide (m = j)) as [->|Hne].
  - assert (x = r) by congruence. subst x.
    apply (list_elem_of_lookup_2 _ i). now rewrite list_lookup_delete_lt.
  - destruct (decide (m < j)%nat) as [Hlt|Hge].
    + apply (list_elem_of_lookup_2 _ m). now rewrite list_lookup_delete_lt.
    + apply (list_elem_of_lookup_2 _ (m - 1)).
      rewrite list_lookup_delete_ge by lia.
      now replace (S (m - 1)) with m by lia.
Qed.

Lemma take_delete_ge {X} (L : list X) j n :
  (n <= j)%nat -> take n (delete j L) = take n L.
Proof.
  intros Hn. apply list_eq. intros m.
  destruct (decide (m < n)%nat).
  - rewrite !lookup_take_lt by assumption.
    apply list_lookup_delete_lt. lia.
  - now rewrite !lookup_take_ge by lia.
Qed.

Lemma take_eq_le {X} (l l' : list X) n m :
  (n <= m)%nat -> take m l' = take m l -> take n l' = take n l.
Proof.
  intros Hn H. replace n with (Nat.min n m) by lia.
  rewrite <- !take_take. now rewrite H.
Qed.

(** The inner loop keeps every row value and the rows before [j]. *)
Lemma dedup_inner_keeps fuel i j (L : matrix) :
  (i < j)%nat -> (i < length L)%nat -> (length L - j <= fuel)%nat ->
  exists L', dedup_inner fuel i j (length L) L = Ok (L', length L') /\
    (forall r, r ∈ L -> r ∈ L') /\ take j L' = take j L.
Proof.
  revert j L. induction fuel as [|fuel IH]; intros j L Hij Hi Hfuel.
  - simpl. rewrite decide_False by lia. exists L. now repeat split.
  - simpl. destruct (decide (j < length L)%nat) as [Hj|Hj].
    2:{ exists L. now repeat split. }
    destruct (lookup_lt_is_Some_2 L i Hi) as [ri Hri].
    destruct (lookup_lt_is_Some_2 L j Hj) as [rj Hrj].
    unfold idx. rewrite Hri, Hrj. simpl.
    destruct (decide (ri = rj)) as [->|Hne].
    + unfold del_idx. rewrite decide_True by assumption. simpl.
      assert (Hlen : length (delete j L) = (length L - 1)%nat).
      { apply length_delete. eauto. }
      rewrite <- Hlen.
      destruct (IH (j + 1)%nat (delete j L)) as (L' & Hrun & Hkeep & Htake);
        [lia | lia | lia |].
      exists L'. split; [exact Hrun|]. split.
      * intros r Hr. apply Hkeep. now apply (elem_of_delete_dup L i j rj).
      * rewrite <- (take_delete_ge L j j) by lia.
        apply (take_eq_le _ _ j (j + 1)); [lia | exact Htake].
    + destruct (IH (j + 1)%nat L) as (L' & Hrun & Hkeep & Htake);
        [lia | lia | lia |].
      exists L'. split; [exact Hrun|]. split; [exact Hkeep|].
      apply (take_eq_le _ _ j (j + 1)); [lia | exact Htake].
Qed.

Lemma dedup_outer_keeps fuel i (L : matrix) :
  (length L - i <= fuel)%nat ->
  exists L', dedup_outer fuel i (length L) L = Ok L' /\
    (forall r, r ∈ L -> r ∈ L') /\ take (S i) L' = take (S i) L.
Proof.
  revert i L. induction fuel as [|fuel IH]; intros i L Hfuel.
  - simpl. rewrite decide_False by lia. exists L. now repeat split.
  - simpl. destruct (decide (i < length L)%nat) as [Hi|Hi].
    2:{ exists L. now repeat split. }
    destruct (dedup_inner_keeps (length L - (i + 1)) i (i + 1) L)
      as (L1 & Hrun & Hkeep & Htake); [lia | lia | lia |].
    destruct (dedup_inner_spec (length L - (i + 1)) i (i + 1) L)
      as (L1' & Hrun' & Hsub & _); [lia | lia | lia |].
    rewrite Hrun in Hrun'. injection Hrun' as <- _.
    rewrite Hrun. simpl.
    pose proof (sublist_length _ _ Hsub) as Hlen.
    destruct (IH (i + 1)%nat L1) as (L' & Hrun2 & Hkeep2 & Htake2); [lia|].
    exists L'. split; [exact Hrun2|]. split; [now auto|].
    rewrite Nat.add_1_r in Htake, Htake2. rewrite <- Htake.
    apply (take_eq_le _ _ (S i) (S (S i))); [lia | exact Htake2].
Qed.

(** The index in [L] of the row found at index [m] of [delete j L]. *)
Lemma lookup_delete_shift {X} (L : list X) j m :
  delete j L !! m = L !! (if decide (m < j)%nat then m else S m).
Proof.
  case_decide.
  - now apply list_lookup_delete_lt.
  - apply list_lookup_delete_ge. lia.
Qed.

Lemma no_triple_delete L j : no_triple L -> no_triple (delete j L).
Proof.
  intros H a b c r Habc Ha Hb Hc.
  rewrite lookup_delete_shift in Ha, Hb, Hc.
  eapply (H _ _ _ r); [|exact Ha | exact Hb | exact Hc].
  repeat case_decide; lia.
Qed.

Lemma unique_before_delete L i j :
  (i <= j)%nat -> unique_before i L -> unique_before i (delete j L).
Proof.
  intros Hij H a b r Ha Hab Hla Hlb.
  rewrite lookup_delete_shift in Hla, Hlb.
  eapply (H _ _ r); [| |exact Hla | exact Hlb]; repeat case_decide; lia.
Qed.

(** With no row value at three indices, the inner loop leaves row [i]
    without a later copy, although it steps over the row that follows a
    deleted one. *)
Lemma dedup_inner_clean fuel i j (L : matrix) :
  (i < j)%nat -> (i < length L)%nat -> (length L - j <= fuel)%nat ->
  no_triple L -> unique_before i L -> clean_between i j L ->
  exists L', dedup_inner fuel i j (length L) L = Ok (L', length L') /\
    no_triple L' /\ unique_before (S i) L'.
Proof.
  revert j L. induction fuel as [|fuel IH];
    intros j L Hij Hi Hfuel H3 Hpre Hclean.
  - simpl. rewrite decide_False by lia. exists L.
    split; [reflexivity|]. split; [assumption|].
    intros a b r Ha Hab Hla Hlb.
    assert (Hb : (b < length L)%nat) by (apply lookup_lt_is_Some_1; eauto).
    destruct (decide (a = i)) as [->|Hai].
    + destruct (decide (b < i)%nat).
      * apply (Hpre b i r); (lia || assumption).
      * apply (Hclean b r); (lia || assumption).
    + apply (Hpre a b r); (lia || assumption).
  - simpl. destruct (decide (j < length L)%nat) as [Hj|Hj].
    2:{ exists L. split; [reflexivity|]. split; [assumption|].
        intros a b r Ha Hab Hla Hlb.
        assert (Hb : (b < length L)%nat) by (apply lookup_lt_is_Some_1; eauto).
        destruct (decide (a = i)) as [->|Hai].
        - destruct (decide (b < i)%nat).
          + apply (Hpre b i r); (lia || assumption).
          + apply (Hclean b r); (lia || assumption).
        - apply (Hpre a b r); (lia || assumption). }
    destruct (lookup_lt_is_Some_2 L i Hi) as [ri Hri].
    destruct (lookup_lt_is_Some_2 L j Hj) as [rj Hrj].
    unfold idx. rewrite Hri, Hrj. simpl.
    destruct (decide (ri = rj)) as [->|Hne].
    + unfold del_idx. rewrite decide_True by assumption. simpl.
      assert (Hlen : length (delete j L) = (length L - 1)%nat).
      { apply length_delete. eauto. }
      rewrite <- Hlen.
      apply (IH (j + 1)%nat (delete j L)); try lia.
      * now apply no_triple_delete.
      * apply unique_before_delete; [lia | assumption].
      * intros b r Hb Hli Hlb. rewrite lookup_delete_shift in Hli, Hlb.
        rewrite decide_True in Hli by lia.
        assert (r = rj) by congruence. subst r.
        destruct (decide (b < j)%nat) as [Hbj|Hbj].
        -- apply (Hclean b rj); (lia || assumption).
        -- apply (H3 i j (S b) rj); (lia || assumption).
    + apply (IH (j + 1)%nat L); try lia; try assumption.
      intros b r Hb Hli Hlb.
      destruct (decide (b = j)) as [->|Hbj]; [congruence|].
      apply (Hclean b r); (lia || assumption).
Qed.

Lemma dedup_outer_clean fuel i (L : matrix) :
  (length L - i <= fuel)%nat -> no_triple L -> unique_before i L ->
  exists L', dedup_outer fuel i (length L) L = Ok L' /\ NoDup L'.
Proof.
  revert i L. induction fuel as [|fuel IH]; intros i L Hfuel H3 Hpre.
  - simpl. rewrite decide_False by lia. exists L. split; [reflexivity|].
    apply NoDup_alt. intros a b r Ha Hb.
    destruct (decide (a = b)) as [|Hab]; [assumption|].
    assert ((a < length L)%nat) by (apply lookup_lt_is_Some_1; eauto).
    destruct (Hpre a b r); (lia || assumption).
  - simpl. destruct (decide (i < length L)%nat) as [Hi|Hi].
    2:{ exists L. split; [reflexivity|].
        apply NoDup_alt. intros a b r Ha Hb.
        destruct (decide (a = b)) as [|Hab]; [assumption|].
        assert ((a < length L)%nat) by (apply lookup_lt_is_Some_1; eauto).
        destruct (Hpre a b r); (lia || assumption). }
    destruct (dedup_inner_clean (length L - (i + 1)) i (i + 1) L)
      as (L1 & Hrun & H31 & Hpre1); try lia; try assumption.
    { intros b r Hb. lia. }
    destruct (dedup_inner_spec (length L - (i + 1)) i (i + 1) L)
      as (L1' & Hrun' & Hsub & _); [lia | lia | lia |].
    rewrite Hrun in Hrun'. injection Hrun' as <- _.
    rewrite Hrun. simpl.
    pose proof (sublist_length _ _ Hsub) as Hlen.
    apply (IH (i + 1)%nat L1); [lia | assumption |].
    now rewrite Nat.add_1_r.
Qed.

Lemma remove_duplicate_rows (L : matrix) :
  exists L', remove_duplicate_row_echelon_form L = Ok L' /\
    L' `sublist_of` L /\ (forall r, r ∈ L' <-> r ∈ L) /\ head L' = head L.
Proof.
  destruct (dedup_outer_keeps (length L) 0 L) as (L' & Hrun & Hkeep & Htake);
    [lia|].
  destruct (remove_duplicate_spec L) as (L'' & Hrun' & Hsub & _).
  unfold remove_duplicate_row_echelon_form in *.
  rewrite Hrun in Hrun'. injection Hrun' as <-.
  exists L'. split; [exact Hrun|]. split; [exact Hsub|]. split.
  - intros r. split; [|apply Hkeep].
    intros Hr. exact (elem_of_sublist _ _ _ Hr Hsub).
  - destruct L' as [|a L'], L as [|c L]; simpl in *; congruence.
Qed.

(** X1: on every list of rows the Deduplicator returns; the result is
    the input with some rows deleted, in the same order, it has the same
    row values as the input, and it starts with the same row. *)
Theorem dedup_keeps_rows (L : matrix) :
  exists L', remove_duplicate_row_echelon_form L = Ok L' /\
    L' `sublist_of` L /\ (forall r, r ∈ L' <-> r ∈ L) /\ head L' = head L.
Proof. exact (remove_duplicate_rows L). Qed.

(** X2: a list of rows that are all distinct is returned unchanged. *)
Theorem dedup_distinct_unchanged (L : matrix) :
  NoDup L -> remove_duplicate_row_echelon_form L = Ok L.
Proof.
  intros Hnd. destruct (remove_duplicate_spec L) as (L' & Hrun & _ & Heq).
  rewrite Hrun. now rewrite (Heq Hnd).
Qed.

Lemma qz_1_neq_0 : qz 1 <> qz 0.
Proof. discriminate. Qed.

Lemma dedup_distinct_unchanged_witness :
  remove_duplicate_row_echelon_form (qmat [[1;0];[0;0]]%Z)
    = Ok (qmat [[1;0];[0;0]]%Z).
Proof.
  apply dedup_distinct_unchanged.
  apply NoDup_cons. split; [|apply NoDup_singleton].
  intros H. apply list_elem_of_singleton in H.
  apply cons_eq_inv in H as [H _]. exact (qz_1_neq_0 H).
Defined.

(** X3: when no row value occurs three times, the result has no two
    equal rows, and a second pass changes nothing.  (With three equal
    rows one survives twice: C7, C8.) *)
Theorem dedup_no_triple (L : matrix) :
  no_triple L ->
  exists L', remove_duplicate_row_echelon_form L = Ok L' /\ NoDup L' /\
    remove_duplicate_row_echelon_form L' = Ok L'.
Proof.
  intros H3.
  destruct (dedup_outer_clean (length L) 0 L) as (L' & Hrun & Hnd);
    [lia | assumption | intros a b r Ha; lia |].
  exists L'. split; [exact Hrun|]. split; [exact Hnd|].
  destruct (remove_duplicate_spec L') as (L'' & Hrun' & _ & Heq).
  rewrite Hrun'. now rewrite (Heq Hnd).
Qed.

Lemma dedup_no_triple_witness :
  exists L', remove_duplicate_row_echelon_form (qmat [[1;0];[0;0];[1;0]]%Z)
             = Ok L' /\ NoDup L' /\
    remove_duplicate_row_echelon_form L' = Ok L'.
Proof.
  apply dedup_no_triple.
  intros a b c r Habc Ha Hb Hc.
  assert (Hc3 : (c < 3)%nat) by (apply lookup_lt_Some in Hc; exact Hc).
  assert (a = 0%nat) by lia. assert (b = 1%nat) by lia. subst a b.
  simpl in Ha, Hb. rewrite <- Hb in Ha.
  apply (inj Some) in Ha. apply cons_eq_inv in Ha as [Ha _].
  exact (qz_1_neq_0 Ha).
Defined.

(** * The Reducer on any rectangular matrix *)

Lemma sublist_lookup_ge {X} (l1 l2 : list X) :
  l1 `sublist_of` l2 ->
  forall k r, l1 !! k = Some r -> exists k', (k <= k')%nat /\ l2 !! k' = Some r.
Proof.
  induction 1 as [|x l1 l2 _ IH|x l1 l2 _ IH]; intros k r Hk.
  - discriminate.
  - destruct k as [|k]; simpl in Hk.
    + exists 0%nat. split; [lia | exact Hk].
    + destruct (IH k r Hk) as (k' & Hle & Hk'). exists (S k').
      split; [lia | exact Hk'].
  - destruct (IH k r Hk) as (k' & Hle & Hk'). exists (S k').
    split; [lia | exact Hk'].
Qed.

Lemma row_echelon_form_rect R C (L : matrix) :
  (0 < R)%nat -> rect R C L ->
  exists L', row_echelon_form L = Ok (Some L') /\
    rect (length L') C L' /\ (1 <= length L' <= R)%nat /\
    lower_zero (length L') (Nat.min C R) L'.
Proof.
  intros HR HL.
  destruct (reduce_prefix R C L (Nat.min C R) HL) as (M & Hrun & HM & Hz);
    [lia|].
  destruct (remove_duplicate_rows M) as (L' & Hdd & Hsub & Hrows & Hhead).
  exists L'. split; [|split; [|split]].
  - unfold row_echelon_form. destruct HL as [HlenL HFL]. rewrite HlenL.
    rewrite decide_False by lia.
    destruct (rect_lookup R C L 0) as (r0 & Hr0 & Hlen0); [now split | lia |].
    unfold idx. rewrite Hr0. simpl. rewrite Hlen0, Hrun. simpl.
    now rewrite Hdd.
  - split; [reflexivity|]. apply Forall_forall. intros r Hr.
    apply Hrows in Hr. destruct HM as [_ HF].
    rewrite Forall_forall in HF. now apply HF.
  - pose proof (sublist_length _ _ Hsub) as Hlen.
    destruct HM as [HlenM _]. split; [|lia].
    destruct M as [|m M]; [simpl in HlenM; lia|].
    destruct L' as [|l L']; [discriminate Hhead | simpl; lia].
  - intros k j Hj Hk.
    destruct (lookup_lt_is_Some_2 L' k) as [r Hr]; [lia|].
    destruct (sublist_lookup_ge _ _ Hsub k r Hr) as (k' & Hle & Hk').
    assert (Hk'R : (k' < R)%nat).
    { destruct HM as [<- _]. now apply lookup_lt_is_Some_1; eauto. }
    transitivity (ent M k' j); [|apply Hz; lia].
    unfold ent. now rewrite Hr, Hk'.
Qed.



Lemma lin_row_lin C (L : matrix) k r v :
  L !! k = Some r -> lin C L k v = row_lin C r v.
Proof. intros Hr. unfold lin, row_lin, ent, at0. now rewrite Hr. Qed.

Lemma solves_lin R C (L : matrix) v :
  rect R C L -> solves C L v <-> forall k, (k < R)%nat -> lin C L k v = 0.
Proof.
  intros HL. split.
  - intros H k Hk. destruct (rect_lookup R C L k HL Hk) as (r & Hr & _).
    rewrite (lin_row_lin C L k r v Hr). apply H.
    now apply (list_elem_of_lookup_2 _ k).
  - intros H r Hr. apply list_elem_of_lookup in Hr as [k Hk].
    rewrite <- (lin_row_lin C L k r v Hk). apply H.
    destruct HL as [<- _]. now apply lookup_lt_is_Some_1; eauto.
Qed.

(** The passes of the Reducer keep the solutions of any rectangular
    system. *)
Lemma reduce_prefix_solutions R C L n :
  rect R C L -> (n <= Nat.min C R)%nat ->
  exists M, for_each (range 0 n) (reduce_column R C) L = Ok M /\
    rect R C M /\ forall v, solves C M v <-> solves C L v.
Proof.
  intros HL Hn.
  destruct (for_range_inv
    (fun k M => rect R C M /\ lower_zero R k M /\
                forall v, solves C M v <-> solves C L v)
    0 n (reduce_column R C) L) as (M & Hrun & HM & _ & Hs).
  - lia.
  - split; [assumption|]. split; [intros k j Hj; lia | reflexivity].
  - intros k M Hk (HM & Hz & Hs).
    destruct (reduce_column_spec R C M k) as
      (r & L1 & L2 & _ & Hr & _ & Heq & _ & Hrun & HL2 & Hform & Hz2);
      [assumption | lia | lia | assumption |].
    exists L2. split; [exact Hrun|]. split; [exact HL2|].
    split; [exact Hz2|]. intros v. rewrite <- (Hs v).
    rewrite (solves_lin R C L2 v HL2), (solves_lin R C M v HM). subst L1.
    apply (reduce_column_solutions R C M k r L2
             (fun k' => - ent (swap_rows k r M) k' k
                        / ent (swap_rows k r M) k k));
      [assumption | lia | lia | exact Hform].
  - exists M. split; [exact Hrun|]. split; assumption.
Qed.



(** * Triangular matrices *)

(** On a triangular matrix with a non-zero diagonal every pass of the
    Reducer picks row [i] itself as pivot row and adds 0 times that row
    to the rows below. *)
Lemma reduce_triangular n C (M : matrix) m :
  rect n C M -> (n <= C)%nat -> lower_zero n n M ->
  (forall j, (j < n)%nat -> ent M j j <> 0) -> (m <= n)%nat ->
  for_each (range 0 m) (reduce_column n C) M = Ok M.
Proof.
  intros HM HnC Hz Hd Hm.
  destruct (for_range_inv (fun (_ : nat) M' => M' = M) 0 m
              (reduce_column n C) M) as (M' & Hrun & ->);
    [lia | reflexivity | | exact Hrun].
  intros k M' Hk ->.
  destruct (reduce_column_spec n C M k) as
    (r & L1 & L2 & _ & Hr & _ & Heq & Hpz & Hrun & HL2 & Hform & _);
    [assumption | lia | lia | intros k' j Hj Hk'; apply Hz; lia |].
  destruct (rect_swap_rows n C M k r HM) as (_ & Hes); [lia | lia |].
  assert (Hrk : r = k).
  { destruct (decide (r = k)) as [|Hne]; [assumption|]. exfalso.
    apply (Hd k); [lia|]. apply Hpz; [|lia].
    subst L1. rewrite Hes. unfold swap_idx.
    rewrite decide_True by reflexivity. apply Hz; lia. }
  subst r.
  assert (H1 : forall k' j, ent L1 k' j = ent M k' j).
  { intros k' j. subst L1. rewrite Hes. unfold swap_idx.
    destruct (decide (k' = k)) as [->|_]; reflexivity. }
  exists L2. split; [exact Hrun|].
  apply (rect_ext n C); [exact HL2 | exact HM |].
  intros k' j Hk' Hj. rewrite Hform, !H1 by assumption.
  destruct (decide ((k < k')%nat /\ ent M k k <> 0)) as [[Hkk Hp]|_];
    [|reflexivity].
  rewrite (Hz k' k) by lia. now field.
Qed.

Lemma set_eqb_zero_inv (r : row) x : set_eqb r [0] = true -> x ∈ r -> x = 0.
Proof.
  unfold set_eqb. intros H Hx. apply andb_prop in H as [H _].
  rewrite forallb_forall in H. apply list_elem_of_In in Hx.
  specialize (H x Hx). cbn [existsb] in H. rewrite orb_false_r in H.
  now apply bool_decide_eq_true in H.
Qed.

(** Every row with a non-zero diagonal entry is counted by [rank]. *)
Lemma count_rows_nonzero_diagonal n C (M : matrix) :
  rect n C M -> (forall k, (k < n)%nat -> ent M k k <> 0) ->
  length (filter (fun l => negb (set_eqb l [0])) M) = n.
Proof.
  intros HM Hd.
  assert (HF : Forall (fun l : row => negb (set_eqb l [0])) M).
  { apply Forall_lookup. intros k r Hr.
    assert (Hk : (k < n)%nat).
    { destruct HM as [<- _]. now apply lookup_lt_is_Some_1; eauto. }
    destruct (set_eqb r [0]) eqn:E; [|exact I]. exfalso.
    apply (Hd k Hk). unfold ent. rewrite Hr.
    destruct (r !! k) as [x|] eqn:Hx; [|reflexivity]. simpl.
    apply (set_eqb_zero_inv r x E). now apply (list_elem_of_lookup_2 _ k). }
  destruct HM as [<- _]. clear Hd.
  induction HF as [|r M' Hr _ IH]; [reflexivity|].
  rewrite filter_cons_True by exact Hr. simpl. now rewrite IH.
Qed.

Lemma row_echelon_form_triangular n C (M : matrix) :
  (0 < n)%nat -> rect n C M -> (n <= C)%nat -> lower_zero n n M ->
  (forall j, (j < n)%nat -> ent M j j <> 0) ->
  row_echelon_form M = Ok (Some M).
Proof.
  intros Hn HM HnC Hz Hd. unfold row_echelon_form.
  pose proof HM as [HlenM _]. rewrite HlenM. rewrite decide_False by lia.
  destruct (rect_lookup n C M 0) as (r0 & Hr0 & Hlen0); [assumption | lia |].
  unfold idx. rewrite Hr0. simpl. rewrite Hlen0.
  replace (Nat.min C n) with n by lia.
  rewrite (reduce_triangular n C M n) by (assumption || lia). simpl.
  destruct (remove_duplicate_spec M) as (M' & -> & _ & Hnd). simpl.
  now rewrite (Hnd (triangular_NoDup n C M HM Hz Hd)).
Qed.

Lemma rank_triangular n C (M : matrix) :
  (0 < n)%nat -> rect n C M -> (n <= C)%nat -> lower_zero n n M ->
  (forall j, (j < n)%nat -> ent M j j <> 0) ->
  row_echelon_form M = Ok (Some M) /\ rank M = Ok n.
Proof.
  intros Hn HM HnC Hz Hd.
  pose proof (row_echelon_form_triangular n C M Hn HM HnC Hz Hd) as Hre.
  split; [exact Hre|]. unfold rank. rewrite Hre. simpl. f_equal.
  now apply (count_rows_nonzero_diagonal n C).
Qed.


Lemma rect_identity n : rect n n (identity n).
Proof.
  split.
  - unfold identity. now rewrite length_map, length_seq.
  - apply Forall_forall. intros r Hr. unfold identity in Hr.
    apply list_elem_of_fmap in Hr as (k & -> & _).
    now rewrite length_map, length_seq.
Qed.

Lemma ent_identity n k j :
  (k < n)%nat -> (j < n)%nat ->
  ent (identity n) k j = if decide (j = k) then 1 else 0.
Proof.
  intros Hk Hj. unfold ent, identity.
  rewrite list_lookup_fmap, lookup_seq_lt by assumption. simpl.
  rewrite list_lookup_fmap, lookup_seq_lt by assumption. reflexivity.
Qed.

(** X7: the rank of the identity matrix of any size [n] is [n]. *)
Theorem rank_identity n : rank (identity n) = Ok n.
Proof.
  destruct n as [|n]; [reflexivity|].
  apply (rank_triangular (S n) (S n)).
  - lia.
  - apply rect_identity.
  - lia.
  - intros k j Hj Hk. rewrite ent_identity by lia.
    now rewrite decide_False by lia.
  - intros j Hj. rewrite ent_identity by lia.
    rewrite decide_True by reflexivity. discriminate.
Qed.


(** * The Solver on a triangular system *)

Lemma rect_coeffs n (M : matrix) : rect n (n + 1) M -> rect n n (coeffs n M).
Proof.
  intros [HlenM HF]. split.
  - unfold coeffs. now rewrite length_map.
  - apply Forall_forall. intros r Hr. unfold coeffs in Hr.
    apply list_elem_of_fmap in Hr as (r' & -> & Hr').
    rewrite Forall_forall in HF. rewrite length_take, (HF r' Hr'). lia.
Qed.

Lemma ent_coeffs n (M : matrix) k j :
  (j < n)%nat -> ent (coeffs n M) k j = ent M k j.
Proof.
  intros Hj. unfold ent, coeffs. rewrite list_lookup_fmap.
  destruct (M !! k) as [r|]; [|reflexivity]. simpl.
  now rewrite lookup_take_lt.
Qed.

Lemma at0_rhs n (M : matrix) k : at0 (rhs n M) k = ent M k n.
Proof.
  unfold at0, rhs, ent. rewrite list_lookup_fmap.
  destruct (M !! k) as [r|]; reflexivity.
Qed.



(** * Back-substitution with more rows than unknowns *)

(** Lines 149-150 on a matrix of [R] rows of [C] items. *)
Lemma substitute_above_rect R C (Rc : matrix) i (x : list Qc) v :
  rect R C Rc -> (1 <= C)%nat -> (i < R)%nat -> (i < C)%nat ->
  x !! i = Some v ->
  exists R',
    for_each (rev (range 0 i))
      (fun j Rc =>
         cur <- get2Z Rc j (Z.of_nat (C - 1)) ;;
         a <- get2 Rc j i ;;
         xi <- idx x i ;;
         set2Z Rc j (Z.of_nat (C - 1)) (cur - a * xi)) Rc = Ok R' /\
    rect R C R' /\
    forall k j, ent R' k j
      = if decide ((k < i)%nat /\ j = (C - 1)%nat)
        then ent Rc k (C - 1) - ent Rc k i * v
        else ent Rc k j.
Proof.
  intros HR HC Hi HiC Hx.
  set (body := fun (j : nat) (Rc : matrix) => _).
  destruct (for_rev_range_inv
    (fun j0 (Rn : matrix) =>
       rect R C Rn /\
       forall k j, ent Rn k j
         = if decide ((j0 <= k < i)%nat /\ j = (C - 1)%nat)
           then ent Rc k (C - 1) - ent Rc k i * v else ent Rc k j)
    i body Rc) as (R' & Hrun & HR' & He).
  - split; [assumption|]. intros k j.
    destruct (decide _) as [H|_]; [lia | reflexivity].
  - intros k0 Rn Hk0 (HRn & Hen). subst body. cbv beta.
    rewrite get2Z_nat.
    rewrite (get2_rect R C) by (assumption || lia). cbn [bind].
    rewrite (get2_rect R C) by (assumption || lia). cbn [bind].
    unfold idx at 1. rewrite Hx. cbn [bind]. rewrite set2Z_nat.
    destruct (set2_rect R C Rn k0 (C - 1)
                (ent Rn k0 (C - 1) - ent Rn k0 i * v))
      as (R1 & -> & HR1 & He1); [assumption | lia | lia |].
    eexists. split; [reflexivity|]. split; [assumption|].
    intros k j. rewrite He1, !Hen. split_cases.
  - exists R'. split; [exact Hrun|]. split; [exact HR'|].
    intros k j. rewrite He. split_cases.
Qed.

Lemma tail_sum_delete_ge M n i k0 k (x : list Qc) :
  (n <= i)%nat -> tail_sum M n k0 k (delete i x) = tail_sum M n k0 k x.
Proof.
  intros Hi. unfold tail_sum. apply sumf_ext. intros j Hj.
  case_decide; [|reflexivity]. unfold at0.
  now rewrite list_lookup_delete_lt by lia.
Qed.

(** Back-substitution on [R >= n] rows in [n >= 1] unknowns, triangular
    with a non-zero diagonal: the slots of the rows from [n] on are
    deleted, whatever their right-hand sides, and the first [n]
    equations are solved. *)
Lemma back_substitute_rows n R (M : matrix) :
  (1 <= n <= R)%nat -> rect R (n + 1) M -> lower_zero R n M ->
  (forall j, (j < n)%nat -> ent M j j <> 0) ->
  exists x, back_substitute R (n + 1) M = Ok x /\ length x = n /\
    forall k, (k < n)%nat -> tail_sum M n k k x = ent M k n.
Proof.
  intros Hn HM Hz Hd. unfold back_substitute.
  replace (Z.of_nat (n + 1) - 1)%Z with (Z.of_nat (n + 1 - 1)) by lia.
  set (body := fun (i : nat) (st : matrix * list Qc) => _).
  destruct (for_rev_range_inv
    (fun i (st : matrix * list Qc) =>
       rect R (n + 1) (fst st) /\ length (snd st) = Nat.max i n /\
       (forall k j, (j < n)%nat -> ent (fst st) k j = ent M k j) /\
       (forall k, (k < Nat.min i n)%nat ->
          ent (fst st) k n
          = ent M k n - tail_sum M n (Nat.min i n) k (snd st)) /\
       (forall k, (i <= k < n)%nat -> tail_sum M n k k (snd st) = ent M k n))
    R body (M, replicate R 0)) as ([Rf x] & Hrun & _ & Hx & _ & _ & Hsol).
  - cbn [fst snd]. split; [assumption|].
    split; [rewrite length_replicate; lia|].
    split; [reflexivity|]. split; [|intros; lia].
    intros k _. replace (Nat.min R n) with n by lia.
    rewrite tail_sum_end. ring.
  - intros i [Rc x] Hi (HR & Hx & HA & Hrhs & Hsol). cbn [fst snd] in *.
    subst body. cbv beta iota zeta.
    destruct (decide (n <= i)%nat) as [Hni|Hni].
    + (* a row beyond the unknowns: its entry in column n - 1 is zero *)
      replace (Z.min (Z.of_nat i) (Z.of_nat (n + 1) - 2))
        with (Z.of_nat (n - 1)) by lia.
      rewrite get2Z_nat.
      rewrite (get2_rect R (n + 1)) by (assumption || lia). cbn [bind].
      assert (Hp : ent Rc i (n - 1) = 0).
      { rewrite HA by lia. apply Hz; lia. }
      rewrite decide_True by assumption.
      unfold del_idx. rewrite decide_True by lia. cbn [bind].
      eexists. split; [reflexivity|]. cbn [fst snd].
      split; [assumption|]. split.
      { rewrite length_delete by (apply lookup_lt_is_Some_2; lia). lia. }
      split; [assumption|]. split; [|intros; lia].
      intros k Hk. replace (Nat.min i n) with n in * by lia.
      replace (Nat.min (S i) n) with n in Hrhs by lia.
      rewrite tail_sum_end. rewrite Hrhs, tail_sum_end by lia. reflexivity.
    + replace (Nat.min i n) with i in * by lia.
      replace (Nat.min (S i) n) with (S i) in Hrhs by lia.
      replace (Nat.max (S i) n) with n in Hx by lia.
      rewrite Z.min_l by lia. rewrite !get2Z_nat.
      rewrite (get2_rect R (n + 1)) by (assumption || lia). cbn [bind].
      assert (Hp : ent Rc i i <> 0) by (rewrite HA by lia; apply Hd; lia).
      rewrite decide_False by assumption.
      replace (n + 1 - 1)%nat with n by lia.
      rewrite (get2_rect R (n + 1)) by (assumption || lia). cbn [bind].
      unfold py_div. rewrite decide_False by assumption. cbn [bind].
      unfold set_idx. rewrite decide_True by lia. cbn [bind].
      set (v := ent Rc i n / ent Rc i i).
      destruct (substitute_above_rect R (n + 1) Rc i (<[i := v]> x) v)
        as (R' & Hrun' & HR' & He);
        [assumption | lia | lia | lia
         | now apply list_lookup_insert_eq; lia |].
      replace (n + 1 - 1)%nat with n in Hrun', He by lia.
      rewrite Hrun'. cbn [bind]. eexists. split; [reflexivity|].
      cbn [fst snd]. split; [assumption|].
      split; [rewrite length_insert; lia|].
      split; [|split].
      * intros k j Hj. rewrite He.
        destruct (decide ((k < i)%nat /\ j = n)) as [[_ Hjn]|_]; [lia|].
        now apply HA.
      * intros k Hk. rewrite He.
        destruct (decide ((k < i)%nat /\ n = n)) as [_|Hf]; [|lia].
        rewrite tail_sum_step by lia.
        rewrite Hrhs by lia. rewrite (HA k i) by lia. ring.
      * intros k Hk. destruct (decide (k = i)) as [->|Hne].
        -- rewrite tail_sum_step by lia.
           assert (Hr := Hrhs i). rewrite <- (HA i i) by lia.
           assert (Hv : ent Rc i i * v = ent Rc i n) by (unfold v; now field).
           rewrite Hv, Hr by lia. ring.
        -- rewrite tail_sum_insert_below by lia. apply Hsol. lia.
  - cbn [fst snd] in *. rewrite Hrun. cbn [bind snd].
    exists x. split; [reflexivity|]. split; [lia|].
    intros k Hk. apply Hsol. lia.
Qed.

(** The solver's path when there are at least as many rows as unknowns:
    no completion, no underdetermined branch. *)
Lemma solve_enough_rows R C (M : matrix) x :
  (0 < R)%nat -> (Z.of_nat C - 1 <= Z.of_nat R)%Z -> rect R C M ->
  back_substitute R C M = Ok x ->
  solve_row_echelon_form (Some M) = Ok ([], Some (map Some x)).
Proof.
  intros HR HRC HM Hbs. unfold solve_row_echelon_form.
  pose proof HM as [HlenM _]. rewrite HlenM. rewrite decide_False by lia.
  destruct (rect_lookup R C M 0) as (m0 & Hm0 & Hlenm0); [assumption | lia |].
  unfold idx. rewrite Hm0. cbn [bind]. rewrite Hlenm0.
  unfold completion.
  destruct (decide (Z.of_nat R < Z.of_nat C - 1)%Z) as [Hlt|_]; [lia|].
  cbn [bind]. rewrite ?HlenM, ?Hm0. cbn [bind]. rewrite ?Hlenm0.
  destruct (decide (Z.of_nat R < Z.of_nat C - 1)%Z) as [Hlt|_]; [lia|].
  rewrite Hbs. reflexivity.
Qed.

Lemma rect_take n R C (M : matrix) :
  (n <= R)%nat -> rect R C M -> rect n C (take n M).
Proof.
  intros Hn [HlenM HF]. split.
  - rewrite length_take. lia.
  - now apply Forall_take.
Qed.

Lemma ent_take n (M : matrix) k j :
  (k < n)%nat -> ent (take n M) k j = ent M k j.
Proof. intros Hk. unfold ent. now rewrite lookup_take_lt. Qed.



Lemma pivots_end M n : pivots M n n = 0%nat.
Proof. unfold pivots. now rewrite Nat.sub_diag. Qed.

Lemma pivots_step M i n :
  (i < n)%nat ->
  pivots M i n
  = ((if decide (ent M i i <> 0%Qc) then 1 else 0) + pivots M (S i) n)%nat.
Proof.
  intros Hi. unfold pivots.
  replace (n - i)%nat with (S (n - S i)) by lia. cbn [seq].
  destruct (decide (ent M i i <> 0)) as [Hp|Hp].
  - now rewrite filter_cons_True.
  - now rewrite filter_cons_False.
Qed.

(** Back-substitution on an echelon matrix of [R >= n] rows in [n >= 1]
    unknowns, zero pivots allowed: nothing is raised, and what is left
    of [x] has one slot per non-zero diagonal entry. *)
Lemma back_substitute_echelon n R (M : matrix) :
  (1 <= n <= R)%nat -> rect R (n + 1) M -> lower_zero R n M ->
  exists x, back_substitute R (n + 1) M = Ok x /\
    length x = pivots M 0 n.
Proof.
  intros Hn HM Hz. unfold back_substitute.
  replace (Z.of_nat (n + 1) - 1)%Z with (Z.of_nat (n + 1 - 1)) by lia.
  set (body := fun (i : nat) (st : matrix * list Qc) => _).
  destruct (for_rev_range_inv
    (fun i (st : matrix * list Qc) =>
       rect R (n + 1) (fst st) /\
       (forall k j, (j < n)%nat -> ent (fst st) k j = ent M k j) /\
       length (snd st)
       = if decide (n <= i)%nat then i else (i + pivots M i n)%nat)
    R body (M, replicate R 0)) as ([Rf x] & Hrun & _ & _ & Hx).
  - cbn [fst snd]. split; [assumption|]. split; [reflexivity|].
    rewrite length_replicate. now rewrite decide_True by lia.
  - intros i [Rc x] Hi (HR & HA & Hx). cbn [fst snd] in *.
    subst body. cbv beta iota zeta.
    destruct (decide (n <= i)%nat) as [Hni|Hni].
    + rewrite decide_True in Hx by lia.
      replace (Z.min (Z.of_nat i) (Z.of_nat (n + 1) - 2))
        with (Z.of_nat (n - 1)) by lia.
      rewrite get2Z_nat.
      rewrite (get2_rect R (n + 1)) by (assumption || lia). cbn [bind].
      assert (Hp : ent Rc i (n - 1) = 0).
      { rewrite HA by lia. apply Hz; lia. }
      rewrite decide_True by assumption.
      unfold del_idx. rewrite decide_True by lia. cbn [bind].
      eexists. split; [reflexivity|]. cbn [fst snd].
      split; [assumption|]. split; [assumption|].
      rewrite length_delete by (apply lookup_lt_is_Some_2; lia). lia.
    + assert (Hx' : length x = (S i + pivots M (S i) n)%nat).
      { destruct (decide (n <= S i)%nat) as [Hn'|Hn']; [|exact Hx].
        assert (S i = n) by lia. subst n. rewrite pivots_end. lia. }
      clear Hx. rewrite (pivots_step M i n) by lia.
      rewrite Z.min_l by lia. rewrite !get2Z_nat.
      rewrite (get2_rect R (n + 1)) by (assumption || lia). cbn [bind].
      assert (Hpe : ent Rc i i = ent M i i) by (apply HA; lia).
      destruct (decide (ent Rc i i = 0)) as [Hp|Hp].
      * unfold del_idx. rewrite decide_True by lia. cbn [bind].
        eexists. split; [reflexivity|]. cbn [fst snd].
        split; [assumption|]. split; [assumption|].
        rewrite length_delete by (apply lookup_lt_is_Some_2; lia).
        rewrite Hpe in Hp.
        destruct (decide (ent M i i <> 0)) as [Hq|_]; [tauto | lia].
      * replace (n + 1 - 1)%nat with n by lia.
        rewrite (get2_rect R (n + 1)) by (assumption || lia). cbn [bind].
        unfold py_div. rewrite decide_False by assumption. cbn [bind].
        unfold set_idx. rewrite decide_True by lia. cbn [bind].
        set (v := ent Rc i n / ent Rc i i).
        destruct (substitute_above_rect R (n + 1) Rc i (<[i := v]> x) v)
          as (R' & Hrun' & HR' & He);
          [assumption | lia | lia | lia
           | now apply list_lookup_insert_eq; lia |].
        replace (n + 1 - 1)%nat with n in Hrun', He by lia.
        rewrite Hrun'. cbn [bind]. eexists. split; [reflexivity|].
        cbn [fst snd]. split; [assumption|]. split.
        -- intros k j Hj. rewrite He.
           destruct (decide ((k < i)%nat /\ j = n)) as [[_ Hjn]|_]; [lia|].
           now apply HA.
        -- rewrite length_insert. rewrite Hpe in Hp.
           destruct (decide (ent M i i <> 0)) as [_|Hq]; [lia | tauto].
  - cbn [fst snd] in *. rewrite Hrun. cbn [bind snd].
    exists x. split; [reflexivity|].
    rewrite Hx. destruct (decide (n <= 0)%nat); [lia | reflexivity].
Qed.





(** * The completion of an underdetermined system *)

Lemma basis_row_length C k : length (basis_row C k) = C.
Proof.
  unfold basis_row, range. now rewrite length_map, length_seq, Nat.sub_0_r.
Qed.

Lemma basis_row_diag C k : (k < C)%nat -> basis_row C k !! k = Some 1.
Proof.
  intros Hk. unfold basis_row, range.
  rewrite list_lookup_fmap, Nat.sub_0_r, lookup_seq_lt by assumption. simpl.
  now rewrite bool_decide_eq_true_2.
Qed.

(** The loop of lines 99-104 on [R] rows of [C > R] items. *)
Lemma complete_basis_spec R C (M : matrix) :
  rect R C M -> (R < C)%nat ->
  exists M', complete_basis R C M = Ok M' /\
    Forall (fun r => length r = C) M' /\ (R <= length M' <= 2 * R)%nat /\
    M `sublist_of` M' /\ forall k, (k < R)%nat -> ent M' k k <> 0.
Proof.
  intros HM HRC. unfold complete_basis.
  set (body := fun (k : nat) (Mc : matrix) => _).
  destruct (for_range_inv
    (fun k (Mc : matrix) =>
       Forall (fun r => length r = C) Mc /\ (R <= length Mc <= R + k)%nat /\
       M `sublist_of` Mc /\ forall k', (k' < k)%nat -> ent Mc k' k' <> 0)
    0 R body M) as (M' & Hrun & HF & Hlen & Hsub & Hd).
  - lia.
  - destruct HM as [HlenM HFM]. split; [assumption|]. split; [lia|].
    split; [reflexivity|]. intros k' Hk'. lia.
  - intros k Mc Hk (HF & Hlen & Hsub & Hd). subst body. cbv beta.
    rewrite (get2_rect (length Mc) C) by (try split; (assumption || lia)).
    cbn [bind].
    destruct (decide (ent Mc k k = 0)) as [Hz|Hz].
    + eexists. split; [reflexivity|]. split; [|split; [|split]].
      * apply Forall_app. split; [apply Forall_app; split|].
        -- now apply Forall_take.
        -- apply Forall_singleton. apply basis_row_length.
        -- now apply Forall_drop.
      * rewrite !length_app, length_take, length_drop. simpl. lia.
      * rewrite <- (take_drop k Mc) in Hsub.
        etransitivity; [exact Hsub|].
        apply sublist_app; [apply sublist_inserts_r|]; reflexivity.
      * intros k' Hk'. unfold ent.
        assert (Hlt : length (take k Mc) = k) by (rewrite length_take; lia).
        destruct (decide (k' = k)) as [->|Hne].
        -- rewrite lookup_app_l by (rewrite length_app; simpl; lia).
           rewrite lookup_app_r by lia. rewrite Hlt, Nat.sub_diag. simpl.
           rewrite basis_row_diag by lia. discriminate.
        -- rewrite lookup_app_l by (rewrite length_app; simpl; lia).
           rewrite lookup_app_l by lia. rewrite lookup_take_lt by lia.
           apply Hd. lia.
    + exists Mc. split; [reflexivity|]. split; [assumption|].
      split; [lia|]. split; [assumption|].
      intros k' Hk'. destruct (decide (k' = k)) as [->|Hne];
        [assumption | apply Hd; lia].
  - exists M'. split; [exact Hrun|]. split; [exact HF|].
    split; [lia|]. split; assumption.
Qed.

(** X12: on a matrix of [R >= 1] rows of [C] items with
    [R < C - 1], the completion raises nothing; it returns the input
    rows in order with at most [R] rows inserted, all of [C] items, and
    the first [R] diagonal entries of the result are non-zero (the rows
    moved past index [R - 1] are not examined). *)
Theorem completion_inserts_rows R C (M : matrix) :
  rect R C M -> (Z.of_nat R < Z.of_nat C - 1)%Z ->
  exists M', completion R C M = Ok M' /\
    Forall (fun r => length r = C) M' /\ (R <= length M' <= 2 * R)%nat /\
    M `sublist_of` M' /\ forall k, (k < R)%nat -> ent M' k k <> 0.
Proof.
  intros HM HRC. unfold completion. rewrite decide_True by assumption.
  apply complete_basis_spec; [assumption | lia].
Qed.

Lemma completion_inserts_rows_witness :
  exists M', completion 2 5 (qmat [[0;1;0;0;1];[0;0;0;1;0]]%Z) = Ok M' /\
    Forall (fun r => length r = 5%nat) M' /\
    (2 <= length M' <= 2 * 2)%nat /\
    qmat [[0;1;0;0;1];[0;0;0;1;0]]%Z `sublist_of` M' /\
    forall k, (k < 2)%nat -> ent M' k k <> 0.
Proof.
  apply (completion_inserts_rows 2 5).
  - split; [reflexivity | repeat constructor].
  - lia.
Defined.

(** * The branch for one equation too few *)

Lemma comprehension_ok {X} xs (f : nat -> res X) (g : nat -> X) :
  (forall x, x ∈ xs -> f x = Ok (g x)) ->
  comprehension xs f = Ok (map g xs).
Proof.
  induction xs as [|a xs IH]; intros H; [reflexivity|]. simpl.
  rewrite (H a) by apply list_elem_of_here. simpl.
  rewrite IH by (intros x Hx; apply H; now apply list_elem_of_further).
  reflexivity.
Qed.

Lemma elem_of_range a b x : x ∈ range a b <-> (a <= x < b)%nat.
Proof. unfold range. rewrite elem_of_seq. lia. Qed.

Lemma column_read R C (M : matrix) col :
  rect R C M -> (col < C)%nat ->
  comprehension (range 0 R) (fun r => get2 M r col)
  = Ok (map (fun r => ent M r col) (range 0 R)).
Proof.
  intros HM Hc. apply comprehension_ok. intros r Hr.
  apply elem_of_range in Hr. apply (get2_rect R C); (assumption || lia).
Qed.

Lemma row_read R C (M : matrix) n r :
  rect R C M -> (r < R)%nat -> (n <= C)%nat ->
  comprehension (range 0 n) (fun col => get2 M r col)
  = Ok (row_prefix M n r).
Proof.
  intros HM Hr Hn. apply comprehension_ok. intros c Hc.
  apply elem_of_range in Hc. apply (get2_rect R C); (assumption || lia).
Qed.

Lemma set_eqb_column (f : nat -> Qc) R :
  (0 < R)%nat ->
  set_eqb (map f (range 0 R)) [0] = true <-> forall k, (k < R)%nat -> f k = 0.
Proof.
  intros HR. split.
  - intros H k Hk. apply (set_eqb_zero_inv _ _ H).
    apply list_elem_of_fmap. exists k. split; [reflexivity|].
    apply elem_of_range. lia.
  - intros H. unfold set_eqb. apply andb_true_intro. split.
    + apply forallb_forall. intros x Hx.
      apply list_elem_of_In, list_elem_of_fmap in Hx as (k & -> & Hk).
      apply elem_of_range in Hk. cbn [existsb].
      rewrite bool_decide_eq_true_2 by (apply H; lia). reflexivity.
    + cbn [forallb]. rewrite andb_true_r. apply existsb_exists.
      exists (f 0%nat). split.
      * apply list_elem_of_In, list_elem_of_fmap. exists 0%nat.
        split; [reflexivity|]. apply elem_of_range. lia.
      * apply bool_decide_eq_true_2. apply H. lia.
Qed.

Lemma zero_column_hit R C (M : matrix) c rest :
  rect R C M -> (0 < R)%nat -> (c < C)%nat -> column_zero M R c ->
  zero_column R (c :: rest) M = Ok (Some c).
Proof.
  intros HM HR Hc Hz. simpl. rewrite (column_read R C) by assumption. simpl.
  now rewrite (proj2 (set_eqb_column (fun r => ent M r c) R HR) Hz).
Qed.

Lemma zero_column_skip R C (M : matrix) pre rest :
  rect R C M -> (0 < R)%nat ->
  (forall c, c ∈ pre -> (c < C)%nat /\ ~ column_zero M R c) ->
  zero_column R (pre ++ rest) M = zero_column R rest M.
Proof.
  intros HM HR. induction pre as [|c pre IH]; intros H; [reflexivity|].
  destruct (H c) as [Hc Hnz]; [apply list_elem_of_here|].
  simpl. rewrite (column_read R C) by assumption. simpl.
  destruct (set_eqb _ [0]) eqn:E.
  - exfalso. apply Hnz.
    exact (proj1 (set_eqb_column (fun r => ent M r c) R HR) E).
  - apply IH. intros c' Hc'. apply H. now apply list_elem_of_further.
Qed.

(** The rows collected by lines 120-124. *)
Lemma even_rows_spec R C (M : matrix) :
  rect R C M ->
  even_rows R C M
  = Ok (map (row_prefix M (C - 1))
          (filter (fun r => row_even M (C - 1) r) (range 0 R))).
Proof.
  intros HM. unfold even_rows.
  set (body := fun (r : nat) (xlist : list row) => _).
  destruct (for_range_inv
    (fun k (xlist : list row) =>
       xlist = map (row_prefix M (C - 1))
                 (filter (fun r => row_even M (C - 1) r) (range 0 k)))
    0 R body []) as (xl & Hrun & ->); [lia | reflexivity | | exact Hrun].
  intros k xlist Hk ->. subst body. cbv beta.
  rewrite !(row_read R C) by (assumption || lia). cbn [bind].
  rewrite range_snoc, filter_app, map_app.
  destruct (decide (mod2 (py_sum (row_prefix M (C - 1) k)) = 0)) as [He|He].
  - eexists. split; [reflexivity|].
    rewrite filter_cons_True by exact He. reflexivity.
  - eexists. split; [reflexivity|].
    rewrite filter_cons_False by exact He. simpl. now rewrite app_nil_r.
Qed.

(** The solver's path once the completed matrix [M'] has [R'] rows of
    [R' + 2] items. *)
Lemma solve_one_short (M M' : matrix) (r0 : row) R' :
  M !! 0%nat = Some r0 ->
  completion (length M) (length r0) M = Ok M' ->
  (0 < R')%nat -> rect R' (R' + 2) M' ->
  solve_row_echelon_form (Some M)
  = (zc <- zero_column R' (range 0 (R' + 1)) M' ;;
     match zc with
     | Some col =>
         Ok ([], Some (map (fun i => Some (if decide (i = col) then 1 else 0))
                         (range 0 (R' + 1))))
     | None =>
         xlist <- even_rows R' (R' + 2) M' ;;
         x <- max_per_index xlist ;;
         Ok ([], Some (map Some x))
     end).
Proof.
  intros H0 Hc HR' HM'. unfold solve_row_echelon_form.
  assert (length M <> 0%nat) by (destruct M; [discriminate | simpl; lia]).
  rewrite decide_False by assumption.
  unfold idx. rewrite H0. cbn [bind]. rewrite Hc. cbn [bind].
  destruct (rect_lookup R' (R' + 2) M' 0) as (r0' & Hr0' & Hlen0');
    [assumption | lia |].
  destruct HM' as [HlenM' _]. rewrite Hr0'. cbn [bind].
  rewrite ?HlenM', ?Hlen0'.
  destruct (decide (Z.of_nat R' < Z.of_nat (R' + 2) - 1)%Z) as [_|Hn]; [|lia].
  destruct (decide (Z.of_nat R' = Z.of_nat (R' + 2) - 2)%Z) as [_|Hn]; [|lia].
  replace (R' + 2 - 1)%nat with (R' + 1)%nat by lia. reflexivity.
Qed.

(** X13: when the completed matrix has [R' >= 1] rows of [R' + 2] items
    and [c] is its first column of zeros among the unknowns, the solver
    returns the vector with 1 at [c] and 0 elsewhere. *)
Theorem solve_zero_column (M M' : matrix) (r0 : row) R' c :
  M !! 0%nat = Some r0 ->
  completion (length M) (length r0) M = Ok M' ->
  (0 < R')%nat -> rect R' (R' + 2) M' ->
  (c < R' + 1)%nat -> column_zero M' R' c ->
  (forall c', (c' < c)%nat -> ~ column_zero M' R' c') ->
  solve_row_echelon_form (Some M)
  = Ok ([], Some (map (fun i => Some (if decide (i = c) then 1 else 0))
                    (range 0 (R' + 1)))).
Proof.
  intros H0 Hc HR' HM' Hc1 Hz Hfirst.
  rewrite (solve_one_short M M' r0 R') by assumption.
  rewrite (range_split 0 c (R' + 1)) by lia.
  rewrite (zero_column_skip R' (R' + 2)); [|assumption|assumption|].
  - rewrite (range_cons c) by lia.
    rewrite (zero_column_hit R' (R' + 2)) by (assumption || lia).
    reflexivity.
  - intros c' Hc'. apply elem_of_range in Hc'. split; [lia|].
    apply Hfirst. lia.
Qed.

(** X14: when the completed matrix has [R' >= 1] rows of [R' + 2] items,
    no column of zeros among the unknowns and no row whose entries
    before the last column have an even sum, the solver raises
    [IndexError]: [xlist] is empty at line 126. *)
Theorem solve_no_even_row (M M' : matrix) (r0 : row) R' :
  M !! 0%nat = Some r0 ->
  completion (length M) (length r0) M = Ok M' ->
  (0 < R')%nat -> rect R' (R' + 2) M' ->
  (forall c, (c < R' + 1)%nat -> ~ column_zero M' R' c) ->
  (forall r, (r < R')%nat -> ~ row_even M' (R' + 1) r) ->
  solve_row_echelon_form (Some M) = Raise IndexError.
Proof.
  intros H0 Hc HR' HM' Hcols Hrows.
  rewrite (solve_one_short M M' r0 R') by assumption.
  rewrite <- (app_nil_r (range 0 (R' + 1))).
  rewrite (zero_column_skip R' (R' + 2)); [|assumption|assumption|].
  - cbn [zero_column bind]. rewrite (even_rows_spec R' (R' + 2)) by assumption.
    cbn [bind]. replace (R' + 2 - 1)%nat with (R' + 1)%nat by lia.
    assert (Hnil : filter (fun r => row_even M' (R' + 1) r) (range 0 R') = []).
    { apply list_eq. intros i. rewrite lookup_nil.
      apply eq_None_not_Some. intros [r Hr].
      apply list_elem_of_lookup_2, list_elem_of_filter in Hr as [He Hr].
      apply elem_of_range in Hr. apply (Hrows r); [lia | exact He]. }
    rewrite Hnil. reflexivity.
  - intros c Hc'. apply elem_of_range in Hc'. split; [lia|].
    apply Hcols. lia.
Qed.

Lemma solve_zero_column_witness :
  solve_row_echelon_form (Some (qmat [[1;0;0;0];[0;1;0;0]]%Z))
  = Ok ([], Some (map (fun i => Some (if decide (i = 2%nat) then 1 else 0))
                    (range 0 (2 + 1)))).
Proof.
  apply (solve_zero_column (qmat [[1;0;0;0];[0;1;0;0]]%Z)
           (qmat [[1;0;0;0];[0;1;0;0]]%Z) (map qz [1;0;0;0]%Z) 2 2).
  - reflexivity.
  - vm_compute. reflexivity.
  - lia.
  - split; [reflexivity | repeat constructor].
  - lia.
  - intros k Hk. destruct k as [|[|k]]; [reflexivity | reflexivity | lia].
  - intros c' Hc' Hz. destruct c' as [|[|c']]; [| |lia].
    + specialize (Hz 0%nat ltac:(lia)). discriminate Hz.
    + specialize (Hz 1%nat ltac:(lia)). discriminate Hz.
Defined.

Lemma solve_no_even_row_witness :
  solve_row_echelon_form (Some (qmat [[1;1;1;0];[0;1;0;0]]%Z))
  = Raise IndexError.
Proof.
  apply (solve_no_even_row (qmat [[1;1;1;0];[0;1;0;0]]%Z)
           (qmat [[1;1;1;0];[0;1;0;0]]%Z) (map qz [1;1;1;0]%Z) 2).
  - reflexivity.
  - vm_compute. reflexivity.
  - lia.
  - split; [reflexivity | repeat constructor].
  - intros c Hc Hz. specialize (Hz 0%nat ltac:(lia)).
    destruct c as [|[|[|c]]]; [| | |lia]; discriminate Hz.
  - intros r Hr He. unfold row_even in He.
    destruct r as [|[|r]]; [| |lia]; vm_compute in He; discriminate He.
Defined.

(** * The maximum per position over the even rows *)

Lemma foldl_max_spec (l : list Qc) a :
  let m := foldl (fun m x => if decide (m < x) then x else m) a l in
  (m = a \/ m ∈ l) /\ a <= m /\ forall y, y ∈ l -> y <= m.
Proof.
  revert a. induction l as [|b l IH]; intros a; cbn [foldl].
  - split; [now left|]. split; [apply Qcle_refl|].
    intros y Hy. now apply elem_of_nil in Hy.
  - specialize (IH (if decide (a < b) then b else a)).
    cbv zeta in IH. destruct IH as (Hin & Hle & Hall).
    set (m := foldl _ _ l) in *.
    destruct (decide (a < b)) as [Hab|Hab].
    + split; [|split].
      * right. destruct Hin as [->|Hin];
          [apply list_elem_of_here | now apply list_elem_of_further].
      * apply Qcle_trans with b; [now apply Qclt_le_weak | exact Hle].
      * intros y Hy. apply elem_of_cons in Hy as [->|Hy];
          [exact Hle | now apply Hall].
    + split; [|split].
      * destruct Hin as [->|Hin]; [now left|].
        right. now apply list_elem_of_further.
      * exact Hle.
      * intros y Hy. apply elem_of_cons in Hy as [->|Hy]; [|now apply Hall].
        apply Qcle_trans with a; [now apply Qcnot_lt_le | exact Hle].
Qed.

(** [max] of a non-empty list is one of its items and bounds them all. *)
Lemma py_max_spec (l : list Qc) :
  l <> [] -> exists m, py_max l = Ok m /\ m ∈ l /\ forall y, y ∈ l -> y <= m.
Proof.
  intros Hl. destruct l as [|a l]; [congruence|]. cbn [py_max].
  destruct (foldl_max_spec l a) as (Hin & Hle & Hall).
  eexists. split; [reflexivity|]. split.
  - destruct Hin as [->|Hin];
      [apply list_elem_of_here | now apply list_elem_of_further].
  - intros y Hy. apply elem_of_cons in Hy as [->|Hy];
      [exact Hle | now apply Hall].
Qed.

Lemma at0_snoc (x : list Qc) m j :
  at0 (x ++ [m]) j
  = if decide (j < length x)%nat then at0 x j
    else if decide (j = length x) then m else 0.
Proof.
  unfold at0. destruct (decide (j < length x)%nat) as [Hj|Hj].
  - now rewrite lookup_app_l.
  - rewrite lookup_app_r by lia.
    destruct (decide (j = length x)) as [->|Hne].
    + now rewrite Nat.sub_diag.
    + destruct (j - length x)%nat as [|d] eqn:E; [lia | reflexivity].
Qed.

(** Lines 125-128 on a non-empty list of rows of [n] items: position
    [j] of the result is the largest of the rows' items at [j]. *)
Lemma max_per_index_spec n (xl : list row) :
  xl <> [] -> Forall (fun l => length l = n) xl ->
  exists x, max_per_index xl = Ok x /\ length x = n /\
    forall j, (j < n)%nat ->
      (forall l, l ∈ xl -> at0 l j <= at0 x j) /\
      (exists l, l ∈ xl /\ at0 l j = at0 x j).
Proof.
  intros Hne HF. unfold max_per_index.
  destruct xl as [|x0 xl']; [congruence|].
  change (idx (x0 :: xl') 0) with (Ok x0). cbn [bind].
  set (xl := x0 :: xl') in *.
  assert (Hx0 : length x0 = n).
  { rewrite Forall_forall in HF. apply HF. apply list_elem_of_here. }
  rewrite Hx0.
  set (body := fun (ind : nat) (x : list Qc) => _).
  destruct (for_range_inv
    (fun k (x : list Qc) =>
       length x = k /\
       forall j, (j < k)%nat ->
         (forall l, l ∈ xl -> at0 l j <= at0 x j) /\
         (exists l, l ∈ xl /\ at0 l j = at0 x j))
    0 n body []) as (x & Hrun & Hlen & Hx); [lia | | | ].
  - split; [reflexivity|]. intros j Hj. lia.
  - intros k x Hk (Hlen & Hx). subst body. cbv beta.
    rewrite (comprehension_ok _ _
               (fun i => at0 (default [] (xl !! i)) k)).
    2:{ intros i Hi. apply elem_of_range in Hi.
        destruct (lookup_lt_is_Some_2 xl i) as [l Hl]; [lia|].
        unfold idx at 1. rewrite Hl. cbn [bind default from_option id].
        assert (Hll : length l = n).
        { rewrite Forall_forall in HF. apply HF.
          now apply (list_elem_of_lookup_2 _ i). }
        destruct (lookup_lt_is_Some_2 l k) as [v Hv]; [lia|].
        unfold idx, at0. now rewrite Hv. }
    cbn [bind].
    assert (Hcol : map (fun i => at0 (default [] (xl !! i)) k)
                     (range 0 (length xl))
                   = map (fun l => at0 l k) xl).
    { apply list_eq. intros i. unfold range.
      rewrite !list_lookup_fmap, Nat.sub_0_r.
      destruct (decide (i < length xl)%nat) as [Hi|Hi].
      - rewrite lookup_seq_lt by assumption.
        destruct (lookup_lt_is_Some_2 xl i Hi) as [l Hl].
        cbn. now rewrite Hl.
      - rewrite lookup_seq_ge by lia.
        now rewrite (lookup_ge_None_2 xl) by lia. }
    rewrite Hcol.
    destruct (py_max_spec (map (fun l => at0 l k) xl))
      as (m & -> & Hm & Hmax); [discriminate|].
    cbn [bind]. eexists. split; [reflexivity|].
    split; [rewrite length_app; simpl; lia|].
    intros j Hj. rewrite at0_snoc, Hlen.
    destruct (decide (j < k)%nat) as [Hjk|Hjk].
    + destruct (Hx j Hjk) as [Hle [l [Hl Heq]]]. split.
      * intros l' Hl'. now apply Hle.
      * exists l. split; [exact Hl|]. exact Heq.
    + assert (j = k) by lia. subst j.
      rewrite decide_True by reflexivity. split.
      * intros l Hl. apply Hmax. apply list_elem_of_fmap.
        exists l. now split.
      * apply list_elem_of_fmap in Hm as (l & -> & Hl).
        exists l. now split.
  - exists x. split; [exact Hrun|]. split; [exact Hlen|]. exact Hx.
Qed.

Lemma row_prefix_length M n r : length (row_prefix M n r) = n.
Proof.
  unfold row_prefix, range. now rewrite length_map, length_seq, Nat.sub_0_r.
Qed.

Lemma at0_row_prefix M n r j :
  (j < n)%nat -> at0 (row_prefix M n r) j = ent M r j.
Proof.
  intros Hj. unfold at0, row_prefix, range.
  rewrite list_lookup_fmap, Nat.sub_0_r, lookup_seq_lt by assumption.
  reflexivity.
Qed.

(** X15: when the completed matrix has [R' >= 1] rows of [R' + 2] items,
    no column of zeros among the unknowns and at least one row whose
    entries before the last column have an even sum, the solver returns
    [R' + 1] values: at each position the largest entry of the even
    rows, which one of them attains. *)
Theorem solve_even_rows (M M' : matrix) (r0 : row) R' r :
  M !! 0%nat = Some r0 ->
  completion (length M) (length r0) M = Ok M' ->
  (0 < R')%nat -> rect R' (R' + 2) M' ->
  (forall c, (c < R' + 1)%nat -> ~ column_zero M' R' c) ->
  (r < R')%nat -> row_even M' (R' + 1) r ->
  exists x, solve_row_echelon_form (Some M) = Ok ([], Some (map Some x)) /\
    length x = (R' + 1)%nat /\
    forall j, (j < R' + 1)%nat ->
      (forall r', (r' < R')%nat -> row_even M' (R' + 1) r' ->
         ent M' r' j <= at0 x j) /\
      (exists r', (r' < R')%nat /\ row_even M' (R' + 1) r' /\
         ent M' r' j = at0 x j).
Proof.
  intros H0 Hc HR' HM' Hcols Hr He.
  rewrite (solve_one_short M M' r0 R') by assumption.
  rewrite <- (app_nil_r (range 0 (R' + 1))).
  rewrite (zero_column_skip R' (R' + 2)); [|assumption|assumption|].
  2:{ intros c Hc'. apply elem_of_range in Hc'. split; [lia|].
      apply Hcols. lia. }
  cbn [zero_column bind]. rewrite (even_rows_spec R' (R' + 2)) by assumption.
  cbn [bind]. replace (R' + 2 - 1)%nat with (R' + 1)%nat by lia.
  set (evens := filter (fun r => row_even M' (R' + 1) r) (range 0 R')).
  assert (Hev : forall r', r' ∈ evens <->
                  (r' < R')%nat /\ row_even M' (R' + 1) r').
  { intros r'. unfold evens. rewrite list_elem_of_filter, elem_of_range.
    split; intros [? ?]; (split; [lia || assumption | lia || assumption]). }
  destruct (max_per_index_spec (R' + 1)
              (map (row_prefix M' (R' + 1)) evens))
    as (x & Hrun & Hlen & Hx).
  - assert (Hin : r ∈ evens) by (apply Hev; now split).
    destruct evens; [now apply elem_of_nil in Hin | discriminate].
  - apply Forall_forall. intros l Hl.
    apply list_elem_of_fmap in Hl as (r' & -> & _).
    apply row_prefix_length.
  - rewrite Hrun. cbn [bind]. exists x. split; [reflexivity|].
    split; [exact Hlen|]. intros j Hj.
    destruct (Hx j Hj) as [Hle [l [Hl Heq]]]. split.
    + intros r' Hr' He'. rewrite <- (at0_row_prefix M' (R' + 1) r' j Hj).
      apply Hle. apply list_elem_of_fmap. exists r'.
      split; [reflexivity|]. apply Hev. now split.
    + apply list_elem_of_fmap in Hl as (r' & -> & Hr').
      apply Hev in Hr' as [Hr' He']. exists r'.
      split; [exact Hr'|]. split; [exact He'|].
      now rewrite <- (at0_row_prefix M' (R' + 1) r' j Hj).
Qed.

Lemma solve_even_rows_witness :
  exists x, solve_row_echelon_form (Some (qmat [[1;1;0;0];[0;1;1;0]]%Z))
            = Ok ([], Some (map Some x)) /\
    length x = (2 + 1)%nat /\
    forall j, (j < 2 + 1)%nat ->
      (forall r', (r' < 2)%nat ->
         row_even (qmat [[1;1;0;0];[0;1;1;0]]%Z) (2 + 1) r' ->
         ent (qmat [[1;1;0;0];[0;1;1;0]]%Z) r' j <= at0 x j) /\
      (exists r', (r' < 2)%nat /\
         row_even (qmat [[1;1;0;0];[0;1;1;0]]%Z) (2 + 1) r' /\
         ent (qmat [[1;1;0;0];[0;1;1;0]]%Z) r' j = at0 x j).
Proof.
  apply (solve_even_rows (qmat [[1;1;0;0];[0;1;1;0]]%Z)
           (qmat [[1;1;0;0];[0;1;1;0]]%Z) (map qz [1;1;0;0]%Z) 2 0).
  - reflexivity.
  - vm_compute. reflexivity.
  - lia.
  - split; [reflexivity | repeat constructor].
  - intros c Hc Hz.
    destruct c as [|[|[|c]]]; [| | |lia].
    + specialize (Hz 0%nat ltac:(lia)). discriminate Hz.
    + specialize (Hz 0%nat ltac:(lia)). discriminate Hz.
    + specialize (Hz 1%nat ltac:(lia)). discriminate Hz.
  - lia.
  - unfold row_even.
    apply (bool_decide_unpack
             (mod2 (py_sum (row_prefix (qmat [[1;1;0;0];[0;1;1;0]]%Z)
                              (2 + 1) 0)) = 0)).
    vm_compute. exact I.
Defined.

(** * The only exception is [IndexError] *)

Section OnlyIndexError.
Context (e : exn) (He : e <> IndexError).

Local Abbreviation ne := (never e).

Lemma ne_idx {X} (l : list X) i : ne (idx l i).
Proof. unfold idx, never. destruct (l !! i); congruence. Qed.

Lemma ne_set_idx {X} (l : list X) i v : ne (set_idx l i v).
Proof. unfold set_idx, never. case_decide; congruence. Qed.

Lemma ne_del_idx {X} (l : list X) i : ne (del_idx l i).
Proof. unfold del_idx, never. case_decide; congruence. Qed.

Lemma ne_idxZ {X} (l : list X) z : ne (idxZ l z).
Proof.
  unfold idxZ. destruct (norm_index _ _); [apply ne_idx|].
  unfold never. congruence.
Qed.

Lemma ne_set_idxZ {X} (l : list X) z v : ne (set_idxZ l z v).
Proof.
  unfold set_idxZ. destruct (norm_index _ _); [apply ne_set_idx|].
  unfold never. congruence.
Qed.

Lemma ne_get2 L k j : ne (get2 L k j).
Proof. apply never_bind; intros; apply ne_idx. Qed.

Lemma ne_get2Z L k z : ne (get2Z L k z).
Proof. apply never_bind; intros; [apply ne_idx | apply ne_idxZ]. Qed.

Lemma ne_set2 L k j v : ne (set2 L k j v).
Proof.
  apply never_bind; intros; [apply ne_idx|].
  apply never_bind; intros; [apply ne_set_idx | apply never_Ok].
Qed.

Lemma ne_set2Z L k z v : ne (set2Z L k z v).
Proof.
  apply never_bind; intros; [apply ne_idx|].
  apply never_bind; intros; [apply ne_set_idxZ | apply never_Ok].
Qed.

Lemma ne_py_div a b : b <> 0 -> ne (py_div a b).
Proof. intros Hb. unfold py_div. rewrite decide_False by assumption. apply never_Ok. Qed.

Create HintDb ne.
Hint Resolve never_Ok ne_idx ne_set_idx ne_del_idx ne_idxZ ne_set_idxZ
  ne_get2 ne_get2Z ne_set2 ne_set2Z : ne.

Ltac ne_step :=
  match goal with
  | |- never _ (bind _ _) => apply never_bind; [|intros ? ?]
  | |- never _ (for_each _ _ _) => apply never_for_each; intros ? ?
  | |- never _ (comprehension _ _) => apply never_comprehension; intros ?
  | |- never _ (if decide _ then _ else _) => case_decide
  | |- never _ (match ?x with (_, _) => _ end) => destruct x
  | |- never _ _ => solve [auto with ne]
  end.

Lemma ne_reduce_column num_rows num_cols i L :
  ne (reduce_column num_rows num_cols i L).
Proof.
  unfold reduce_column.
  apply never_bind; [unfold pivot_search; repeat ne_step|]. intros r _.
  apply never_bind; [unfold swap_step; repeat ne_step|]. intros M _.
  unfold eliminate. apply never_for_each. intros k M'.
  apply never_bind; [auto with ne|]. intros p Hp.
  case_decide; [apply never_Ok|].
  apply never_bind; [auto with ne|]. intros a _.
  rewrite Hp. simpl.
  apply never_bind; [now apply ne_py_div|]. intros c _.
  unfold eliminate_row. repeat ne_step.
Qed.

(** The Deduplicator returns on every list, so it raises nothing. *)
Lemma ne_remove_duplicate L : ne (remove_duplicate_row_echelon_form L).
Proof.
  destruct (remove_duplicate_spec L) as (L' & -> & _). apply never_Ok.
Qed.

Lemma ne_row_echelon_form L : ne (row_echelon_form L).
Proof.
  unfold row_echelon_form. case_decide; [apply never_Ok|].
  apply never_bind; [auto with ne|]. intros r0 _.
  apply never_bind.
  - apply never_for_each. intros i M. apply ne_reduce_column.
  - intros M _. apply never_bind; [apply ne_remove_duplicate|].
    intros; apply never_Ok.
Qed.

Lemma ne_back_substitute num_rows num_cols R :
  ne (back_substitute num_rows num_cols R).
Proof.
  unfold back_substitute.
  apply never_bind; [|intros; apply never_Ok].
  apply never_for_each. intros i [M x].
  apply never_bind; [auto with ne|]. intros p Hp.
  case_decide.
  - repeat ne_step.
  - apply never_bind; [auto with ne|]. intros b _.
    rewrite Hp. simpl.
    apply never_bind; [now apply ne_py_div|]. intros v _.
    repeat ne_step.
Qed.

Lemma ne_zero_column num_rows cols R : ne (zero_column num_rows cols R).
Proof.
  induction cols as [|c cols IH]; simpl; [apply never_Ok|].
  apply never_bind; [repeat ne_step|]. intros col _.
  destruct (set_eqb _ _); [apply never_Ok | apply IH].
Qed.

Lemma comprehension_length {X} xs (f : nat -> res X) l :
  comprehension xs f = Ok l -> length l = length xs.
Proof.
  revert l. induction xs as [|a xs IH]; intros l H; simpl in H.
  - now injection H as <-.
  - destruct (f a) as [v|]; [|discriminate]. simpl in H.
    destruct (comprehension xs f) as [l'|]; [|discriminate]. simpl in H.
    injection H as <-. simpl. now rewrite (IH l').
Qed.

(** [max] at line 127 is called on as many items as [xlist] has rows,
    and [xlist[0]] has just been read. *)
Lemma ne_max_per_index xlist : ne (max_per_index xlist).
Proof.
  unfold max_per_index.
  apply never_bind; [auto with ne|]. intros x0 Hx0.
  apply never_for_each. intros ind x.
  apply never_bind; [repeat ne_step|]. intros c Hc.
  apply never_bind; [|intros; apply never_Ok].
  apply comprehension_length in Hc.
  destruct c as [|a c].
  - exfalso. unfold idx in Hx0. destruct xlist; [discriminate Hx0|].
    unfold range in Hc. rewrite length_seq in Hc. simpl in Hc. lia.
  - apply never_Ok.
Qed.

Lemma ne_solve_list R : ne (solve_row_echelon_form (Some R)).
Proof.
  unfold solve_row_echelon_form. case_decide; [apply never_Ok|].
  apply never_bind; [auto with ne|]. intros r0 _.
  apply never_bind.
  { unfold completion, complete_basis. repeat ne_step. }
  intros R' _. apply never_bind; [auto with ne|]. intros r0' _.
  case_decide.
  - case_decide; [|apply never_Ok].
    apply never_bind; [apply ne_zero_column|]. intros [col|] _.
    + apply never_Ok.
    + apply never_bind; [unfold even_rows; repeat ne_step|]. intros xl _.
      apply never_bind; [apply ne_max_per_index|]. intros; apply never_Ok.
  - apply never_bind; [apply ne_back_substitute | intros; apply never_Ok].
Qed.
End OnlyIndexError.

Lemma row_echelon_form_None L : row_echelon_form L = Ok None -> L = [].
Proof.
  unfold row_echelon_form. case_decide as Hlen.
  - intros _. now destruct L.
  - destruct (idx L 0); [|discriminate]. simpl.
    destruct (for_each _ _ _); [|discriminate]. simpl.
    destruct (remove_duplicate_row_echelon_form _); discriminate.
Qed.


(** * Partial pivoting *)

(** X17: in a matrix of [R] rows of [C] items, the pivot search for
    column [i] returns a row from [i] on whose entry in that column is
    largest in absolute value, and the first such row: every earlier row
    from [i] on has a strictly smaller one. *)
Theorem pivot_search_first_largest R C (L : matrix) i :
  rect R C L -> (i < R)%nat -> (i < C)%nat ->
  exists r, pivot_search R i L = Ok r /\ (i <= r < R)%nat /\
    (forall k, (i <= k < R)%nat -> Qcabs (ent L k i) <= Qcabs (ent L r i)) /\
    (forall k, (i <= k < r)%nat -> Qcabs (ent L k i) < Qcabs (ent L r i)).
Proof.
  intros HL Hi HiC. unfold pivot_search.
  rewrite (get2_rect R C) by assumption. simpl.
  set (body := fun (k : nat) '(max_el, max_row) => _).
  destruct (for_range_inv
    (fun k (st : Qc * nat) =>
       (i <= snd st < R)%nat /\ fst st = Qcabs (ent L (snd st) i) /\
       (forall k', (i <= k' < k)%nat -> Qcabs (ent L k' i) <= fst st) /\
       (forall k', (i <= k' < snd st)%nat -> Qcabs (ent L k' i) < fst st))
    (i + 1) R body (Qcabs (ent L i i), i))
    as ([m r] & Hrun & Hr & Hm & Hmax & Hfirst).
  - lia.
  - simpl. split; [lia|]. split; [reflexivity|]. split.
    + intros k' Hk'. assert (k' = i) by lia. subst k'. apply Qcle_refl.
    + intros k' Hk'. lia.
  - intros k [m r] Hk (Hr & Hm & Hmax & Hfirst). simpl in *.
    subst body. simpl.
    rewrite (get2_rect R C) by (assumption || lia). simpl.
    destruct (decide (m < Qcabs (ent L k i))) as [Hlt|Hlt].
    + eexists. split; [reflexivity|]. simpl.
      split; [lia|]. split; [reflexivity|]. split.
      * intros k' Hk'. destruct (decide (k' = k)) as [->|Hne].
        -- apply Qcle_refl.
        -- apply Qcle_trans with m; [apply Hmax; lia | now apply Qclt_le_weak].
      * intros k' Hk'. apply Qcle_lt_trans with m; [apply Hmax; lia | exact Hlt].
    + eexists. split; [reflexivity|]. simpl.
      split; [lia|]. split; [assumption|]. split.
      * intros k' Hk'. destruct (decide (k' = k)) as [->|Hne].
        -- now apply Qcnot_lt_le.
        -- apply Hmax; lia.
      * exact Hfirst.
  - rewrite Hrun. simpl in *. exists r. split; [reflexivity|].
    split; [assumption|]. split.
    + intros k Hk. rewrite <- Hm. now apply Hmax.
    + intros k Hk. rewrite <- Hm. now apply Hfirst.
Qed.

Lemma pivot_search_first_largest_witness :
  exists r, pivot_search 3 0 (qmat [[1;2];[-3;4];[3;5]]%Z) = Ok r /\
    (0 <= r < 3)%nat /\
    (forall k, (0 <= k < 3)%nat ->
       Qcabs (ent (qmat [[1;2];[-3;4];[3;5]]%Z) k 0)
       <= Qcabs (ent (qmat [[1;2];[-3;4];[3;5]]%Z) r 0)) /\
    (forall k, (0 <= k < r)%nat ->
       Qcabs (ent (qmat [[1;2];[-3;4];[3;5]]%Z) k 0)
       < Qcabs (ent (qmat [[1;2];[-3;4];[3;5]]%Z) r 0)).
Proof.
  apply (pivot_search_first_largest 3 2); [|lia|lia].
  split; [reflexivity | repeat constructor].
Defined.

(** * Matrices without unknowns or without columns *)

(** X18: on a single row of a single item [b] the column of the
    right-hand side is also the column [min(0, -1) = -1] of the pivot:
    the solver returns [[1]] ([b / b]) when [b] is not zero and [[]]
    when it is. *)
Theorem solve_single_cell (b : Qc) :
  solve_row_echelon_form (Some [[b]])
  = Ok ([], Some (if decide (b = 0) then [] else [Some 1])).
Proof.
  unfold solve_row_echelon_form, completion, back_substitute. simpl.
  unfold get2Z, idxZ, norm_index. simpl.
  destruct (decide (b = 0)) as [Hb|Hb]; simpl.
  - reflexivity.
  - unfold py_div. rewrite decide_False by assumption. simpl.
    assert (Hdiv : b / b = 1) by now field.
    now rewrite Hdiv.
Qed.

(** X19: a matrix of [R >= 1] rows without columns has a [rank] between
    1 and [R]: a row without entries does not form the set [{0}] and is
    counted. *)
Theorem rank_no_columns R :
  (0 < R)%nat -> exists m, rank (zeros R 0) = Ok m /\ (1 <= m <= R)%nat.
Proof.
  intros HR. unfold rank, row_echelon_form.
  assert (Hlen : length (zeros R 0) = R) by apply length_replicate.
  rewrite Hlen. rewrite decide_False by lia.
  assert (H0 : zeros R 0 !! 0%nat = Some []).
  { apply lookup_replicate. split; [reflexivity | lia]. }
  unfold idx. rewrite H0. simpl.
  destruct (remove_duplicate_rows (zeros R 0))
    as (L' & -> & Hsub & Hrows & Hhead).
  simpl. eexists. split; [reflexivity|].
  assert (HF : Forall (fun l : row => negb (set_eqb l [0])) L').
  { apply Forall_forall. intros r Hr. apply Hrows in Hr.
    apply elem_of_replicate in Hr as [-> _]. exact I. }
  assert (Hall : length (filter (fun l : row => negb (set_eqb l [0])) L')
                 = length L').
  { clear -HF. induction HF as [|r M' Hr _ IH]; [reflexivity|].
    rewrite filter_cons_True by exact Hr. simpl. now rewrite IH. }
  rewrite Hall. pose proof (sublist_length _ _ Hsub) as Hle.
  rewrite Hlen in Hle. split; [|exact Hle].
  destruct L' as [|l L']; [|simpl; lia].
  destruct R; [lia | discriminate Hhead].
Qed.

Lemma rank_no_columns_witness :
  exists m, rank (zeros 2 0) = Ok m /\ (1 <= m <= 2)%nat.
Proof. apply (rank_no_columns 2). lia. Defined.
